(** * Methyltransferase grouping scripts: EC extraction, name classifier,
      group resolver and sectioned-reference parser.

    Shallow embedding of
      - ec_to_type.py                    (name classifier)
      - assign_groups_to_ec_summary.py   (reference parser, resolver, main)
      - split_mt2_by_group.py            (reference loader, resolver, main)
      - MT_split_by_ec.py                (EC extraction, main)

    Python [str] values are sequences of Unicode code points; they are
    modelled as [list N].  The behaviour of the interpreter on ASCII code
    points is written out; what its Unicode tables say about code points
    from 128 on is left open through the class [Unicode]. *)

From Stdlib Require Import String Ascii NArith List Bool Lia.
From stdpp Require Import base decidable option list gmap sorting.

Local Open Scope N_scope.

(** ** Python strings *)

Abbreviation pystr := (list N).

Definition py (s : string) : pystr :=
  List.map N_of_ascii (list_ascii_of_string s).
Arguments py s%_string.

(** What the interpreter's Unicode database says about code points >= 128. *)
Class Unicode := {
  (** [Py_UNICODE_ISDECIMAL] *)
  uni_isdecimal : N -> bool;
  (** [Py_UNICODE_ISALPHA || Py_UNICODE_ISDIGIT || Py_UNICODE_ISNUMERIC] *)
  uni_isalpha_num : N -> bool;
  (** [Py_UNICODE_ISSPACE] *)
  uni_isspace : N -> bool;
  (** [uni_ignorecase p c]: under [re.IGNORECASE] the cased pattern letter
      [p] accepts the subject code point [c] *)
  uni_ignorecase : N -> N -> bool;
  (** full lower-casing of one code point, given the text before and after
      it ([str.lower] looks at the context of a capital sigma) *)
  uni_lower : list N -> N -> list N -> list N
}.

Section Str.
Context `{U : Unicode}.

Definition between (lo hi c : N) : bool := (lo <=? c) && (c <=? hi).

Definition isdecimal (c : N) : bool :=
  if c <? 128 then between 48 57 c else uni_isdecimal c.

(** [Py_UNICODE_ISALNUM] is alpha || decimal || digit || numeric. *)
Definition isalnum (c : N) : bool :=
  isdecimal c ||
  (if c <? 128 then between 65 90 c || between 97 122 c
   else uni_isalpha_num c).

(** [\w] of a str pattern: alphanumeric or underscore. *)
Definition isword (c : N) : bool := isalnum c || (c =? 95).

(** [Py_UNICODE_ISSPACE]: on ASCII, 0x09-0x0D, 0x1C-0x1F and space. *)
Definition isspace (c : N) : bool :=
  if c <? 128 then between 9 13 c || between 28 32 c else uni_isspace c.

Definition ascii_lower (c : N) : N :=
  if between 65 90 c then c + 32 else c.

(** [s.lower()] *)
Fixpoint lower_from (before s : pystr) : pystr :=
  match s with
  | [] => []
  | c :: rest =>
      (if c <? 128 then [ascii_lower c] else uni_lower before c rest)
        ++ lower_from (before ++ [c]) rest
  end.

Definition lower (s : pystr) : pystr := lower_from [] s.

(** [s.startswith(p)] *)
Fixpoint startswith (p s : pystr) : bool :=
  match p, s with
  | [], _ => true
  | a :: p', b :: s' => (a =? b) && startswith p' s'
  | _ :: _, [] => false
  end.

(** [p in s] for strings *)
Fixpoint contains (p s : pystr) : bool :=
  startswith p s ||
  match s with
  | [] => false
  | _ :: s' => contains p s'
  end.

(** [s.lstrip()], [s.rstrip()], [s.strip()] *)
Fixpoint lstrip (s : pystr) : pystr :=
  match s with
  | c :: s' => if isspace c then lstrip s' else s
  | [] => []
  end.

Definition rstrip (s : pystr) : pystr := rev (lstrip (rev s)).

Definition strip (s : pystr) : pystr := rstrip (lstrip s).

(** [s.split(sep)[0]] and [s.split(sep, 1)[0]] for a one-character [sep]:
    the text before the first separator, the whole text if there is none. *)
Fixpoint split_first (sep : N) (s : pystr) : pystr :=
  match s with
  | [] => []
  | c :: s' => if c =? sep then [] else c :: split_first sep s'
  end.

(** Line boundaries of [str.splitlines]: LF, CR, CR LF, VT, FF, FS, GS, RS,
    NEL (U+0085), LINE SEPARATOR (U+2028), PARAGRAPH SEPARATOR (U+2029). *)
Definition islinebreak (c : N) : bool :=
  between 10 13 c || between 28 30 c || (c =? 133) || (c =? 8232) || (c =? 8233).

(** [s.splitlines()]; [cur] is the line read so far. *)
Fixpoint splitlines_from (cur s : pystr) : list pystr :=
  match s with
  | [] => match cur with [] => [] | _ => [cur] end
  | c :: s' =>
      if islinebreak c then
        match s' with
        | d :: s'' =>
            if (c =? 13) && (d =? 10) then cur :: splitlines_from [] s''
            else cur :: splitlines_from [] s'
        | [] => [cur]
        end
      else splitlines_from (cur ++ [c]) s'
  end.

Definition splitlines (s : pystr) : list pystr := splitlines_from [] s.

End Str.

(** ** Regular expressions of the [re] module

    The patterns of the scripts use literals, [\d], [\s], bracket sets,
    [\b], concatenation, alternation, one capturing group, and [*] / [+]
    applied to a single-character item.  Matching is the backtracking
    search of [re]: alternatives are tried left to right, repetitions are
    greedy, and the first way to reach the end of the pattern wins. *)

(** One-character items. *)
Inductive cset :=
| CLit (p : N)             (* a character without case: compared exactly *)
| CLitI (p : N)            (* a lower-case ASCII letter under re.IGNORECASE *)
| CDigit                   (* \d *)
| CSpace                   (* \s *)
| CRange (lo hi : N)       (* lo-hi inside [...] *)
| CUnion (a b : cset).     (* [...] with several members *)

Inductive regex :=
| Eps
| Chr (c : cset)
| Bnd                      (* \b *)
| Cat (r1 r2 : regex)
| Alt (r1 r2 : regex)      (* r1|r2 *)
| Star (c : cset)          (* c* *)
| Plus (c : cset)          (* c+ *)
| Grp (r : regex).         (* (r), group 1 *)

(** A literal string compiled without flags. *)
Definition lit (s : string) : regex :=
  foldr (fun c r => Cat (Chr (CLit c)) r) Eps (py s).

(** A literal string compiled with [re.IGNORECASE]: letters accept both
    cases, other characters are compared exactly. *)
Definition lit_i (s : string) : regex :=
  foldr (fun c r =>
           Cat (Chr (if between 65 90 c || between 97 122 c
                     then CLitI (ascii_lower c) else CLit c)) r)
        Eps (py s).

Section Regex.
Context `{U : Unicode}.

Fixpoint cset_match (cs : cset) (c : N) : bool :=
  match cs with
  | CLit p => p =? c
  | CLitI p => if c <? 128 then ascii_lower c =? p else uni_ignorecase p c
  | CDigit => isdecimal c
  | CSpace => isspace c
  | CRange lo hi => between lo hi c
  | CUnion a b => cset_match a c || cset_match b c
  end.

(** [\b] between the character before the position ([None] at the start of
    the text) and the rest of the text. *)
Definition word_before (prev : option N) : bool :=
  match prev with Some c => isword c | None => false end.

Definition word_after (s : pystr) : bool :=
  match s with c :: _ => isword c | [] => false end.

Definition boundary (prev : option N) (s : pystr) : bool :=
  xorb (word_before prev) (word_after s).

Section Run.
Context {A : Type}.

(** A continuation receives the character before the position reached, the
    text that is left, and the content of group 1. *)
Definition cont := option N -> pystr -> option pystr -> option A.

(** Greedy [c*]: take one more character if possible, give it back if the
    rest of the pattern then fails. *)
Fixpoint run_star (c : cset) (prev : option N) (s : pystr)
    (g : option pystr) (k : cont) : option A :=
  match s with
  | x :: s' =>
      if cset_match c x then
        match run_star c (Some x) s' g k with
        | Some a => Some a
        | None => k prev s g
        end
      else k prev s g
  | [] => k prev s g
  end.

Fixpoint run (r : regex) (prev : option N) (s : pystr)
    (g : option pystr) (k : cont) : option A :=
  match r with
  | Eps => k prev s g
  | Chr c =>
      match s with
      | x :: s' => if cset_match c x then k (Some x) s' g else None
      | [] => None
      end
  | Bnd => if boundary prev s then k prev s g else None
  | Cat r1 r2 => run r1 prev s g (fun p s' g' => run r2 p s' g' k)
  | Alt r1 r2 =>
      match run r1 prev s g k with
      | Some a => Some a
      | None => run r2 prev s g k
      end
  | Star c => run_star c prev s g k
  | Plus c =>
      match s with
      | x :: s' => if cset_match c x then run_star c (Some x) s' g k else None
      | [] => None
      end
  | Grp r' =>
      run r' prev s g
          (fun p s' _ => k p s' (Some (take (length s - length s') s)))
  end.

End Run.

(** A match: the text left after it and the content of group 1. *)
Record rmatch := { m_rest : pystr; m_group1 : option pystr }.

Definition accept : cont (A := rmatch) :=
  fun _ s g => Some {| m_rest := s; m_group1 := g |}.

(** The whole text must be consumed ([fullmatch]). *)
Definition accept_all : cont (A := rmatch) :=
  fun _ s g => match s with [] => Some {| m_rest := s; m_group1 := g |} | _ => None end.

(** The match must not be empty (a scan that has just produced an empty
    match at this position). *)
Definition accept_nonempty (s0 : pystr) : cont (A := rmatch) :=
  fun _ s g =>
    if (length s =? length s0)%nat then None
    else Some {| m_rest := s; m_group1 := g |}.

(** [pat.match(s)] *)
Definition re_match (r : regex) (s : pystr) : option rmatch :=
  run r None s None accept.

(** [pat.fullmatch(s)] *)
Definition re_fullmatch (r : regex) (s : pystr) : option rmatch :=
  run r None s None accept_all.

(** [pat.search(s)]: the first position from the left where a match starts. *)
Fixpoint search_from (r : regex) (prev : option N) (s : pystr) : option rmatch :=
  match run r prev s None accept with
  | Some m => Some m
  | None =>
      match s with
      | [] => None
      | x :: s' => search_from r (Some x) s'
      end
  end.

Definition re_search (r : regex) (s : pystr) : option rmatch :=
  search_from r None s.

(** The text of the match that starts at [s] and leaves [m_rest]. *)
Definition matched (s : pystr) (m : rmatch) : pystr :=
  take (length s - length (m_rest m)) s.

(** [pat.findall(s)] for a pattern without groups: the texts of the
    non-overlapping matches, scanning from the left.  [skip] counts the
    characters of the last match that are still to be passed.  After an
    empty match, a non-empty match is looked for at the same position
    before the scan moves on. *)
Fixpoint findall_from (r : regex) (prev : option N) (s : pystr) (skip : nat)
    : list pystr :=
  match skip with
  | S n =>
      match s with
      | [] => []
      | x :: s' => findall_from r (Some x) s' n
      end
  | O =>
      match run r prev s None accept with
      | None =>
          match s with
          | [] => []
          | x :: s' => findall_from r (Some x) s' 0
          end
      | Some m =>
          match matched s m with
          | [] =>
              [] ::
              match run r prev s None (accept_nonempty s) with
              | None =>
                  match s with
                  | [] => []
                  | x :: s' => findall_from r (Some x) s' 0
                  end
              | Some m' =>
                  matched s m' ::
                  match s with
                  | [] => []
                  | x :: s' =>
                      findall_from r (Some x) s' (length (matched s m') - 1)
                  end
              end
          | txt =>
              txt ::
              match s with
              | [] => []
              | x :: s' => findall_from r (Some x) s' (length txt - 1)
              end
          end
      end
  end.

Definition re_findall (r : regex) (s : pystr) : list pystr :=
  findall_from r None s 0.

End Regex.

Definition seq (rs : list regex) : regex := foldr Cat Eps rs.

(** Truth value of a match object or [None]. *)
Definition found (m : option rmatch) : bool :=
  match m with Some _ => true | None => false end.

(** ** ec_to_type.py *)
Module ec_to_type.

(** 2['′]-o : the second character is an apostrophe or U+2032 PRIME *)
Definition RE_2P_O : regex :=
  seq [Chr (CLit 50); Chr (CUnion (CLit 39) (CLit 8242)); lit_i "-o"].
Definition RE_O_MT : regex := seq [Bnd; lit_i "o-methyltransferase"; Bnd].

Definition RE_N_MT : regex := seq [Bnd; lit_i "n-methyltransferase"; Bnd].
(** \bn\(\d+\)|n\(alpha\) *)
Definition RE_N_PAREN : regex :=
  Alt (seq [Bnd; lit_i "n("; Plus CDigit; lit_i ")"]) (lit_i "n(alpha)").

Definition RE_C_MT : regex := seq [Bnd; lit_i "c-methyltransferase"; Bnd].
(** \bc\(\d+\) *)
Definition RE_C_PAREN : regex := seq [Bnd; lit_i "c("; Plus CDigit; lit_i ")"].
Definition RE_CYTOSINE_5 : regex := lit_i "cytosine-5".

Definition RE_S_MT : regex := seq [Bnd; lit_i "s-methyltransferase"; Bnd].
Definition RE_S_HINT : regex :=
  Alt (seq [Bnd; lit_i "thiol"; Bnd])
  (Alt (seq [Bnd; lit_i "thioether"; Bnd])
  (Alt (seq [Bnd; lit_i "cysteine"; Bnd])
       (seq [Bnd; lit_i "mercaptan"; Bnd]))).

Definition RE_CO_MT : regex := seq [Bnd; lit_i "co-methyltransferase"; Bnd].

Definition RE_MT_WORD : regex := seq [Bnd; lit_i "methyltransferase"; Bnd].

Section Classify.
Context `{U : Unicode}.

Definition classify (name status : pystr) : pystr :=
  if decide (status = py "TRANSFERRED") then py "TRANSFERRED"
  else if decide (status = py "DELETED") then py "DELETED"
  else if found (re_search RE_CO_MT name) then py "OTHER"
  else if found (re_search RE_2P_O name) || found (re_search RE_O_MT name)
  then py "O_MT"
  else if found (re_search RE_N_MT name) || found (re_search RE_N_PAREN name)
  then py "N_MT"
  else if found (re_search RE_C_MT name) || found (re_search RE_C_PAREN name)
          || found (re_search RE_CYTOSINE_5 name)
  then py "C_MT"
  else
    let low := lower name in
    if found (re_search RE_S_MT name)
       || (found (re_search RE_MT_WORD name) && found (re_search RE_S_HINT name)
           && negb (contains (py "s-adenosyl") low))
    then py "S_MT"
    else if found (re_search RE_MT_WORD name) then py "UNCLEAR"
    else py "OTHER".

End Classify.
End ec_to_type.

(** ** Dictionaries, tables, files and exceptions *)

(** [d.setdefault(k, v)] used as a statement. *)
Definition setdefault (k v : pystr) (d : gmap pystr pystr) : gmap pystr pystr :=
  match d !! k with
  | Some _ => d
  | None => <[k := v]> d
  end.

(** A pandas DataFrame read with [dtype=str]: the column labels in order and,
    for each row, the cells by label; a missing cell is NaN. *)
Record DataFrame := {
  columns : list pystr;
  rows : list (gmap pystr pystr)
}.

(** [df[col].fillna("").astype(str)] *)
Definition column_text (df : DataFrame) (col : pystr) : list pystr :=
  (fun row : gmap pystr pystr => default [] (row !! col)) <$> rows df.

(** [df[col] = values] *)
Definition set_column (df : DataFrame) (col : pystr) (values : list pystr)
    : DataFrame :=
  {| columns := if bool_decide (col ∈ columns df) then columns df
                else columns df ++ [col];
     rows := zip_with (fun (row : gmap pystr pystr) v => <[col := v]> row)
                      (rows df) values |}.

(** What a [RuntimeError] of the scripts reports. *)
Inductive message :=
| NoMappings
    (* "Parsed 0 EC->group mappings ..." / "Loaded 0 EC->group mappings ..." *)
| ColumnNotFound (col : pystr) (file : pystr) (available : list pystr)
    (* "Column '<col>' not found in <file>. Available columns: [...]" *)
| NoEcColumn (file : pystr) (available : list pystr)
    (* "Could not find an EC column in <file>. Columns: [...]" *)
| NoGroupColumn (file : pystr) (available : list pystr).
    (* "Could not find a group column in <file>. Columns: [...]" *)

Inductive exn :=
| RuntimeError (msg : message)
| KeyError (key : pystr)
    (* raised by DataFrame.sort_values for a column the frame does not have *)
| LibraryError.   (* raised inside Path.read_text or pandas.read_csv *)

Inductive result (A : Type) :=
| Ok (a : A)
| Raise (e : exn).
Arguments Ok {A} a.
Arguments Raise {A} e.

(** [result] as an error monad: [x ← r; k] stops at the first [Raise]. *)
#[global] Instance result_ret : MRet result := fun A a => Ok a.
#[global] Instance result_bind : MBind result :=
  fun A B f r =>
    match r with
    | Ok a => f a
    | Raise e => Raise e
    end.

(** The files a run reads: [Path.read_text] and [pandas.read_csv]. *)
Class Files := {
  read_text : pystr -> result pystr;
  read_csv : pystr -> result DataFrame
}.

Definition TAB : N := 9.

(** ** assign_groups_to_ec_summary.py *)
Module assign_groups_to_ec_summary.

(** \b\d+\.\d+\.\d+\.(?:\d+|-)\b *)
Definition EC_REGEX : regex :=
  seq [Bnd; Plus CDigit; lit "."; Plus CDigit; lit "."; Plus CDigit; lit ".";
       Alt (Plus CDigit) (lit "-"); Bnd].

(** #\s*([A-Za-z0-9_]+)\b *)
Definition HEADER : regex :=
  seq [lit "#"; Star CSpace;
       Grp (Plus (CUnion (CRange 65 90) (CUnion (CRange 97 122)
                 (CUnion (CRange 48 57) (CLit 95)))));
       Bnd].

Section Code.
Context `{U : Unicode} `{F : Files}.

(** The state of the loop of [parse_mt_grouped]. *)
Record pstate := {
  ec_to_group : gmap pystr pystr;
  current_group : option pystr
}.

(** One iteration of the loop, on the line [raw]. *)
Definition parse_line (st : pstate) (raw : pystr) : pstate :=
  let line := strip raw in
  match line with
  | [] => st
  | _ =>
    if startswith (py "#") line then
      {| ec_to_group := ec_to_group st;
         current_group :=
           match re_match HEADER line with
           | Some m => m_group1 m
           | None => None
           end |}
    else if startswith (py "ec" ++ [TAB]) (lower line) then st
    else
      match current_group st with
      | None => st
      | Some g =>
          (* line.split("\t") is never empty *)
          let ec := strip (split_first TAB line) in
          if found (re_fullmatch EC_REGEX ec) then
            {| ec_to_group := setdefault ec g (ec_to_group st);
               current_group := current_group st |}
          else st
      end
  end.

Definition parse_lines (st : pstate) (lines : list pystr) : pstate :=
  foldl parse_line st lines.

Definition parse_text (text : pystr) : gmap pystr pystr :=
  ec_to_group
    (parse_lines {| ec_to_group := ∅; current_group := None |} (splitlines text)).

Definition parse_mt_grouped (path : pystr) : result (gmap pystr pystr) :=
  text ← read_text path;
  Ok (parse_text text).

(** The loop of the resolver: the groups found, in order, and the number of
    ECs without a group. *)
Definition lookup_step (d : gmap pystr pystr) (acc : list pystr * nat)
    (ec : pystr) : list pystr * nat :=
  match d !! ec with
  | None => (acc.1, S acc.2)
  | Some g => (acc.1 ++ [g], acc.2)
  end.

(** [next(iter(gs))] *)
Definition next_iter (gs : gset pystr) : option pystr := head (elements gs).

Definition choose_group_for_ecs (ecs : list pystr) (d : gmap pystr pystr)
    : pystr :=
  match ecs with
  | [] => py "NO_EC"
  | _ =>
    let '(groups, unknown) := foldl (lookup_step d) ([], O) ecs in
    let groups_set : gset pystr := list_to_set groups in
    if bool_decide (groups = []) && negb (unknown =? 0)%nat then py "UNKNOWN"
    else if negb (bool_decide (groups = [])) && negb (unknown =? 0)%nat
    then py "MIXED"
    else if (size groups_set =? 1)%nat then
      (* a set of one element has a first element *)
      default [] (next_iter groups_set)
    else py "MULTIPLE"
  end.

Record args := {
  mt_grouped_tsv : pystr;
  ec_summary_tsv : pystr;
  ec_col : pystr          (* default "EC_key" *)
}.

(** [main] up to the annotated summary table that is written out. *)
Definition main (a : args) : result DataFrame :=
  d ← parse_mt_grouped (mt_grouped_tsv a);
  if bool_decide (d = ∅) then Raise (RuntimeError NoMappings)
  else
    df ← read_csv (ec_summary_tsv a);
    if negb (bool_decide (ec_col a ∈ columns df)) then
      Raise (RuntimeError
               (ColumnNotFound (ec_col a) (ec_summary_tsv a) (columns df)))
    else
      let ecs := re_findall EC_REGEX <$> column_text df (ec_col a) in
      Ok (set_column df (py "MT_group")
                     ((fun l => choose_group_for_ecs l d) <$> ecs)).

End Code.
End assign_groups_to_ec_summary.

(** ** split_mt2_by_group.py *)
Module split_mt2_by_group.

(** \b\d+\.\d+\.\d+\.(?:\d+|-)\b *)
Definition EC_REGEX : regex :=
  seq [Bnd; Plus CDigit; lit "."; Plus CDigit; lit "."; Plus CDigit; lit ".";
       Alt (Plus CDigit) (lit "-"); Bnd].

(** #\s*([A-Za-z0-9_-]+) *)
Definition HEADER : regex :=
  seq [lit "#"; Star CSpace;
       Grp (Plus (CUnion (CRange 65 90) (CUnion (CRange 97 122)
                 (CUnion (CRange 48 57) (CUnion (CLit 95) (CLit 45))))))].

Section Code.
Context `{U : Unicode} `{F : Files}.

(** The state of the loop of [parse_grouped_sectioned]. *)
Record pstate := {
  ec_to_group : gmap pystr pystr;
  current_group : option pystr
}.

(** One iteration of the loop, on the line [raw]. *)
Definition parse_line (st : pstate) (raw : pystr) : pstate :=
  let line := strip raw in
  match line with
  | [] => st
  | _ =>
    if startswith (py "#") line then
      {| ec_to_group := ec_to_group st;
         current_group :=
           match re_match HEADER line with
           | Some m => m_group1 m
           | None => None
           end |}
    else if startswith (py "ec" ++ [TAB]) (lower line) then st
    else
      match current_group st with
      | None | Some [] => st       (* if not current_group *)
      | Some g =>
          let ec := strip (split_first TAB line) in
          if found (re_fullmatch EC_REGEX ec) then
            {| ec_to_group := setdefault ec g (ec_to_group st);
               current_group := current_group st |}
          else st
      end
  end.

Definition parse_lines (st : pstate) (lines : list pystr) : pstate :=
  foldl parse_line st lines.

Definition parse_text (text : pystr) : gmap pystr pystr :=
  ec_to_group
    (parse_lines {| ec_to_group := ∅; current_group := None |} (splitlines text)).

Definition parse_grouped_sectioned (path : pystr) : result (gmap pystr pystr) :=
  text ← read_text path;
  Ok (parse_text text).

(** [c.strip().lower()] of a column label *)
Definition label (c : pystr) : pystr := lower (strip c).

(** [str(row.get(col, "")).strip()]: a NaN cell prints as "nan". *)
Definition cell (row : gmap pystr pystr) (col : pystr) : pystr :=
  strip (default (py "nan") (row !! col)).

Definition table_row (ec_col group_col : pystr) (d : gmap pystr pystr)
    (row : gmap pystr pystr) : gmap pystr pystr :=
  let ec := cell row ec_col in
  let group := cell row group_col in
  if found (re_fullmatch EC_REGEX ec) && negb (bool_decide (group = []))
  then setdefault ec group d else d.

Definition parse_grouped_table (path : pystr) : result (gmap pystr pystr) :=
  df ← read_csv path;
  let ec_named :=
    filter (fun c => label c ∈ [py "ec"; py "ec_number"; py "ec number"])
           (columns df) in
  let ec_candidates :=
    match ec_named with
    | [] => filter (fun c => contains (py "ec") (label c) = true) (columns df)
    | _ => ec_named
    end in
  match ec_candidates with
  | [] => Raise (RuntimeError (NoEcColumn path (columns df)))
  | ec_col :: _ =>
    let group_named :=
      filter (fun c => label c ∈ [py "group"; py "mt_group"; py "mt group"])
             (columns df) in
    let group_candidates :=
      match group_named with
      | [] => filter (fun c => contains (py "group") (label c) = true) (columns df)
      | _ => group_named
      end in
    match group_candidates with
    | [] => Raise (RuntimeError (NoGroupColumn path (columns df)))
    | group_col :: _ => Ok (foldl (table_row ec_col group_col) ∅ (rows df))
    end
  end.

(** Sectioned format first; if it yields nothing, the table format. *)
Definition load_ec_to_group (path : pystr) : result (gmap pystr pystr) :=
  d ← parse_grouped_sectioned path;
  if bool_decide (d = ∅) then parse_grouped_table path else Ok d.

Definition lookup_step (d : gmap pystr pystr) (acc : list pystr * nat)
    (ec : pystr) : list pystr * nat :=
  match d !! ec with
  | None => (acc.1, S acc.2)
  | Some g => (acc.1 ++ [g], acc.2)
  end.

(** [next(iter(gs))] *)
Definition next_iter (gs : gset pystr) : option pystr := head (elements gs).

Definition decide_row_group (ec_list : list pystr) (d : gmap pystr pystr)
    : pystr :=
  match ec_list with
  | [] => py "NO_EC"
  | _ =>
    let '(groups, unknown) := foldl (lookup_step d) ([], O) ec_list in
    if bool_decide (groups = []) && negb (unknown =? 0)%nat then py "UNKNOWN"
    else if negb (bool_decide (groups = [])) && negb (unknown =? 0)%nat
    then py "MIXED"
    else
      let gs : gset pystr := list_to_set groups in
      if (size gs =? 1)%nat then
        (* a set of one element has a first element *)
        default [] (next_iter gs)
      else py "MULTIPLE"
  end.

Record args := {
  mt_grouped_tsv : pystr;
  mt2_tsv : pystr;
  ec_col : pystr          (* default "EC number" *)
}.

(** [main] up to the table with its [MT_group] column, from which the
    per-group files are written. *)
Definition main (a : args) : result DataFrame :=
  d ← load_ec_to_group (mt_grouped_tsv a);
  if bool_decide (d = ∅) then Raise (RuntimeError NoMappings)
  else
    df ← read_csv (mt2_tsv a);
    if negb (bool_decide (ec_col a ∈ columns df)) then
      Raise (RuntimeError (ColumnNotFound (ec_col a) (mt2_tsv a) (columns df)))
    else
      let ecs := re_findall EC_REGEX <$> column_text df (ec_col a) in
      Ok (set_column df (py "MT_group")
                     ((fun l => decide_row_group l d) <$> ecs)).

End Code.
End split_mt2_by_group.

(** ** MT_split_by_ec.py *)

(** Order of [str] values: lexicographic on code points. *)
Fixpoint str_leb (a b : pystr) : bool :=
  match a, b with
  | [], _ => true
  | _ :: _, [] => false
  | x :: a', y :: b' => (x <? y) || ((x =? y) && str_leb a' b')
  end.

Definition str_le (a b : pystr) : Prop := Is_true (str_leb a b).

#[global] Instance str_le_dec : RelDecision str_le.
Proof. intros a b. unfold str_le. apply _. Defined.

(** [sep.join(xs)] *)
Fixpoint join (sep : pystr) (xs : list pystr) : pystr :=
  match xs with
  | [] => []
  | [x] => x
  | x :: rest => x ++ sep ++ join sep rest
  end.

(** An argument that may or may not be a [str]. *)
Inductive pyobj :=
| PStr (s : pystr)
| PNotStr.

(** Order of the rows of the summary, which hold a key and a number of rows:
    [sort_values(["rows", "EC_key"], ascending=[False, True])]. *)
Definition summary_leb (x y : pystr * nat) : bool :=
  (y.2 <? x.2)%nat || ((x.2 =? y.2)%nat && str_leb x.1 y.1).

Definition summary_le (x y : pystr * nat) : Prop := Is_true (summary_leb x y).

#[global] Instance summary_le_dec : RelDecision summary_le.
Proof. intros x y. unfold summary_le. apply _. Defined.

Module MT_split_by_ec.

(** \b\d+\.\d+\.\d+\.(?:\d+|-)\b *)
Definition EC_REGEX : regex :=
  seq [Bnd; Plus CDigit; lit "."; Plus CDigit; lit "."; Plus CDigit; lit ".";
       Alt (Plus CDigit) (lit "-"); Bnd].

Section Code.
Context `{U : Unicode} `{F : Files}.

(** Sorted unique list of the EC numbers found in a string. *)
Definition extract_ec_list (s : pyobj) : list pystr :=
  match s with
  | PNotStr => []
  | PStr s =>
      let ecs := re_findall EC_REGEX s in
      merge_sort str_le (elements (list_to_set ecs : gset pystr))
  end.

Inductive mode := first | explode | joined.

Record args := {
  input_file : pystr;
  ec_col : pystr;         (* default "EC number" *)
  cat_col : pystr;        (* default "Catalytic activity" *)
  how : mode              (* --mode, default explode *)
}.

(** The text column the EC numbers are taken from. *)
Definition ec_source (a : args) (df : DataFrame) : list pystr :=
  if bool_decide (ec_col a ∈ columns df) then column_text df (ec_col a)
  else if bool_decide (cat_col a ∈ columns df) then column_text df (cat_col a)
  else (* create empty series if nothing exists *)
    replicate (length (rows df)) [].

(** The grouping keys of a row with EC list [xs]. *)
Definition ec_keys (m : mode) (xs : list pystr) : list pystr :=
  match m with
  | first => [match xs with x :: _ => x | [] => py "NO_EC" end]
  | joined => [match xs with [] => py "NO_EC" | _ => join (py "|") xs end]
  | explode => match xs with [] => [py "NO_EC"] | _ => xs end
  end.

(** The rows with their keys, each row once for each of its keys: the table
    with its column [EC_key] (in mode explode, the exploded copy). *)
Definition keyed (a : args) (df : DataFrame)
    : list (pystr * gmap pystr pystr) :=
  let ec_list := (fun s => extract_ec_list (PStr s)) <$> ec_source a df in
  mjoin (zip_with (fun row xs => (fun k => (k, row)) <$> ec_keys (how a) xs)
                  (rows df) ec_list).

(** [groupby("EC_key", dropna=False)]: the keys in sorted order, each with
    its rows in the order of the table. *)
Definition groupby (kr : list (pystr * gmap pystr pystr))
    : list (pystr * list (gmap pystr pystr)) :=
  (fun k => (k, (filter (fun x => x.1 = k) kr).*2))
    <$> merge_sort str_le (elements (list_to_set kr.*1 : gset pystr)).

(** What a run writes: one file for each key, with the rows of the key, and
    the summary with the columns [EC_key] and [rows] (the column [file] is
    left out). *)
Record output := {
  groups : list (pystr * list (gmap pystr pystr));
  summary : list (pystr * nat)
}.

(** [main] up to the sorted summary; writing is taken to succeed.  A frame
    built from an empty [summary_rows] has no column, and sorting it by
    [rows] raises. *)
Definition main (a : args) : result output :=
  df ← read_csv (input_file a);
  let gs := groupby (keyed a df) in
  let summary_rows := (fun g => (g.1, length g.2)) <$> gs in
  match summary_rows with
  | [] => Raise (KeyError (py "rows"))
  | _ => Ok {| groups := gs;
               summary := merge_sort summary_le summary_rows |}
  end.

End Code.
End MT_split_by_ec.

(** * Properties *)

(** ** The group resolver *)
Section Resolver.
Import assign_groups_to_ec_summary.

Implicit Types (ecs : list pystr) (d : gmap pystr pystr) (g ec : pystr).

(** The groups found and the ECs without a group, as list operations. *)
Definition mapped_groups d ecs : list pystr := omap (fun ec => d !! ec) ecs.
Definition unmapped d ecs : list pystr :=
  filter (fun ec => d !! ec = None) ecs.

Lemma lookup_loop d ecs gs n :
  foldl (lookup_step d) (gs, n) ecs
  = (gs ++ mapped_groups d ecs, (n + length (unmapped d ecs))%nat).
Proof.
  revert gs n. induction ecs as [|ec ecs IH]; intros gs n.
  - simpl. by rewrite app_nil_r, Nat.add_0_r.
  - cbn [foldl]. unfold lookup_step at 2, mapped_groups, unmapped.
    rewrite filter_cons. cbn [omap list_omap fst snd].
    destruct (d !! ec) as [g|] eqn:E; rewrite IH.
    + case_decide; [done|]. by rewrite <- app_assoc.
    + case_decide; [|done]. cbn [length]. unfold mapped_groups, unmapped.
      f_equal. lia.
Qed.

Lemma mapped_groups_elem d ecs g :
  g ∈ mapped_groups d ecs ↔ ∃ ec, ec ∈ ecs ∧ d !! ec = Some g.
Proof. unfold mapped_groups. by rewrite list_elem_of_omap. Qed.

Lemma mapped_groups_nil d ecs :
  mapped_groups d ecs = [] ↔ ∀ ec, ec ∈ ecs → d !! ec = None.
Proof.
  split.
  - intros E ec Hin. destruct (d !! ec) as [g|] eqn:Eg; [|done].
    assert (g ∈ mapped_groups d ecs) as Hg by (apply mapped_groups_elem; eauto).
    rewrite E in Hg. by apply elem_of_nil in Hg.
  - intros H. destruct (mapped_groups d ecs) as [|g gs] eqn:E; [done|].
    assert (g ∈ mapped_groups d ecs) as Hg by (rewrite E; left).
    apply mapped_groups_elem in Hg as (ec & Hin & Hec).
    rewrite (H ec Hin) in Hec. done.
Qed.

Lemma unmapped_elem d ecs ec :
  ec ∈ unmapped d ecs ↔ ec ∈ ecs ∧ d !! ec = None.
Proof. unfold unmapped. rewrite list_elem_of_filter. tauto. Qed.

Lemma unmapped_none d ecs :
  length (unmapped d ecs) = O ↔ ∀ ec, ec ∈ ecs → is_Some (d !! ec).
Proof.
  split.
  - intros E ec Hin. destruct (d !! ec) as [g|] eqn:Eg; [eauto|].
    assert (ec ∈ unmapped d ecs) as Hu by (by apply unmapped_elem).
    destruct (unmapped d ecs); [by apply elem_of_nil in Hu | done].
  - intros H. destruct (unmapped d ecs) as [|ec l] eqn:E; [done|].
    assert (ec ∈ unmapped d ecs) as Hu by (rewrite E; left).
    apply unmapped_elem in Hu as [Hin Hn].
    destruct (H ec Hin) as [g Hg]. congruence.
Qed.

(** What the resolver returns once the loop is done. *)
Definition verdict (no_groups no_unknown : bool) (gs : gset pystr) : pystr :=
  if no_groups && negb no_unknown then py "UNKNOWN"
  else if negb no_groups && negb no_unknown then py "MIXED"
  else if (size gs =? 1)%nat then default [] (head (elements gs))
  else py "MULTIPLE".

Lemma choose_group_for_ecs_verdict ecs d :
  ecs ≠ [] →
  choose_group_for_ecs ecs d
  = verdict (bool_decide (mapped_groups d ecs = []))
            (length (unmapped d ecs) =? 0)%nat
            (list_to_set (mapped_groups d ecs)).
Proof.
  intros Hne. unfold choose_group_for_ecs.
  destruct ecs as [|ec ecs]; [done|].
  rewrite lookup_loop. reflexivity.
Qed.

Lemma decide_row_group_choose ecs d :
  split_mt2_by_group.decide_row_group ecs d = choose_group_for_ecs ecs d.
Proof.
  unfold split_mt2_by_group.decide_row_group, choose_group_for_ecs.
  destruct ecs as [|ec ecs]; [done|].
  change (split_mt2_by_group.lookup_step d) with (lookup_step d).
  destruct (foldl (lookup_step d) ([], O) (ec :: ecs)) as [groups unknown].
  reflexivity.
Qed.

Lemma verdict_unknown d ecs :
  ecs ≠ [] → (∀ ec, ec ∈ ecs → d !! ec = None) →
  choose_group_for_ecs ecs d = py "UNKNOWN".
Proof.
  intros Hne Hall. rewrite choose_group_for_ecs_verdict by done.
  assert (mapped_groups d ecs = []) as -> by (by apply mapped_groups_nil).
  destruct (length (unmapped d ecs)) eqn:E; [|done].
  pose proof (proj1 (unmapped_none _ _) E) as E'. destruct ecs as [|ec ecs]; [done|].
  destruct (E' ec) as [g Hg]; [left|]. rewrite Hall in Hg; [done|left].
Qed.

Lemma verdict_mixed d ecs :
  (∃ ec, ec ∈ ecs ∧ is_Some (d !! ec)) → (∃ ec, ec ∈ ecs ∧ d !! ec = None) →
  choose_group_for_ecs ecs d = py "MIXED".
Proof.
  intros (e1 & Hin1 & [g Hg]) (e2 & Hin2 & Hn).
  rewrite choose_group_for_ecs_verdict
    by (intros ->; by apply elem_of_nil in Hin1).
  unfold verdict.
  rewrite bool_decide_eq_false_2.
  2:{ intros E. rewrite mapped_groups_nil in E. rewrite (E e1 Hin1) in Hg. done. }
  destruct (length (unmapped d ecs)) eqn:E; [|done].
  pose proof (proj1 (unmapped_none _ _) E) as E'. destruct (E' e2 Hin2) as [g' Hg']. congruence.
Qed.

Lemma all_mapped_verdict d ecs :
  ecs ≠ [] → (∀ ec, ec ∈ ecs → is_Some (d !! ec)) →
  choose_group_for_ecs ecs d
  = let gs : gset pystr := list_to_set (mapped_groups d ecs) in
    if (size gs =? 1)%nat then default [] (head (elements gs))
    else py "MULTIPLE".
Proof.
  intros Hne Hall. rewrite choose_group_for_ecs_verdict by done.
  unfold verdict.
  apply (proj2 (unmapped_none _ _)) in Hall. rewrite Hall. simpl.
  by rewrite !andb_false_r.
Qed.

Lemma verdict_same d ecs g :
  ecs ≠ [] → (∀ ec, ec ∈ ecs → d !! ec = Some g) →
  choose_group_for_ecs ecs d = g.
Proof.
  intros Hne Hall. rewrite all_mapped_verdict; [|done|by eauto].
  assert (list_to_set (mapped_groups d ecs) = ({[ g ]} : gset pystr)) as ->.
  { apply set_eq. intros x. rewrite elem_of_list_to_set, mapped_groups_elem.
    rewrite elem_of_singleton. split.
    - intros (ec & Hin & Hx). rewrite (Hall ec Hin) in Hx. congruence.
    - intros ->. destruct ecs as [|ec ecs]; [done|].
      exists ec. split; [left|apply Hall; left]. }
  cbv zeta. rewrite size_singleton, elements_singleton. reflexivity.
Qed.

Lemma verdict_multiple d ecs :
  (∀ ec, ec ∈ ecs → is_Some (d !! ec)) →
  (∃ e1 e2 g1 g2, e1 ∈ ecs ∧ e2 ∈ ecs ∧
                   d !! e1 = Some g1 ∧ d !! e2 = Some g2 ∧ g1 ≠ g2) →
  choose_group_for_ecs ecs d = py "MULTIPLE".
Proof.
  intros Hall (e1 & e2 & g1 & g2 & H1 & H2 & Hg1 & Hg2 & Hne).
  rewrite all_mapped_verdict;
    [|intros ->; by apply elem_of_nil in H1|done].
  cbv zeta. destruct (size _ =? 1)%nat eqn:E; [|done].
  apply Nat.eqb_eq in E. apply size_1_elem_of in E as [x Hx].
  assert (g1 ∈ ({[x]} : gset pystr)) as Hx1.
  { rewrite <- Hx, elem_of_list_to_set, mapped_groups_elem. eauto. }
  assert (g2 ∈ ({[x]} : gset pystr)) as Hx2.
  { rewrite <- Hx, elem_of_list_to_set, mapped_groups_elem. eauto. }
  apply elem_of_singleton in Hx1, Hx2. congruence.
Qed.

End Resolver.

Section ResolverClaims.
Import assign_groups_to_ec_summary.
Import split_mt2_by_group.

Implicit Types (ecs : list pystr) (d : gmap pystr pystr) (g ec : pystr).

Lemma same_ecs_nil ecs1 ecs2 :
  (list_to_set ecs1 : gset pystr) = list_to_set ecs2 → ecs1 = [] → ecs2 = [].
Proof.
  intros Hset ->. destruct ecs2 as [|ec ecs2]; [done|].
  assert (ec ∈ (list_to_set [] : gset pystr)) as Hin.
  { rewrite Hset, elem_of_list_to_set. left. }
  by apply elem_of_empty in Hin.
Qed.

Lemma same_ecs_elem ecs1 ecs2 ec :
  (list_to_set ecs1 : gset pystr) = list_to_set ecs2 → ec ∈ ecs1 → ec ∈ ecs2.
Proof.
  intros Hset Hin.
  apply (elem_of_list_to_set (C := gset pystr)).
  rewrite <- Hset. by apply elem_of_list_to_set.
Qed.

Lemma choose_group_for_ecs_set ecs1 ecs2 d :
  (list_to_set ecs1 : gset pystr) = list_to_set ecs2 →
  choose_group_for_ecs ecs1 d = choose_group_for_ecs ecs2 d.
Proof.
  intros Hset.
  destruct (decide (ecs1 = [])) as [E1|N1].
  { rewrite (same_ecs_nil _ _ Hset E1). by rewrite E1. }
  assert (ecs2 ≠ []) as N2.
  { intros E2. by apply N1, (same_ecs_nil ecs2 ecs1). }
  rewrite !choose_group_for_ecs_verdict by done.
  assert (∀ a b, (list_to_set a : gset pystr) = list_to_set b →
                 ∀ g, g ∈ mapped_groups d a → g ∈ mapped_groups d b) as Hgs.
  { intros a b Hab g. rewrite !mapped_groups_elem.
    intros (ec & Hin & Hg). exists ec. eauto using same_ecs_elem. }
  assert (∀ a b, (list_to_set a : gset pystr) = list_to_set b →
                 length (unmapped d a) = O → length (unmapped d b) = O) as Hun.
  { intros a b Hab. rewrite !unmapped_none. intros H ec Hin.
    apply H. by apply (same_ecs_elem b a). }
  assert ((list_to_set (mapped_groups d ecs1) : gset pystr)
          = list_to_set (mapped_groups d ecs2)) as ->.
  { apply set_eq. intros g. rewrite !elem_of_list_to_set.
    split; by apply Hgs. }
  f_equal.
  - apply bool_decide_ext. rewrite !mapped_groups_nil.
    split; intros H ec Hin; apply H.
    + by apply (same_ecs_elem ecs2 ecs1).
    + by apply (same_ecs_elem ecs1 ecs2).
  - destruct (length (unmapped d ecs1)) eqn:E1,
             (length (unmapped d ecs2)) eqn:E2; try done.
    + apply (Hun ecs1 ecs2) in E1; [congruence|done].
    + apply (Hun ecs2 ecs1) in E2; [congruence|done].
Qed.

(** C1. The resolver returns the five-way outcome, in both scripts: NO_EC on
    an empty list; UNKNOWN when the list is not empty and no EC is a key;
    MIXED when some EC is a key and some EC is not; the common group when
    all ECs are keys with one and the same group; MULTIPLE when all ECs are
    keys and two of them have different groups. *)
Theorem resolver_five_way_partition ecs d :
  let both (label : pystr) :=
    choose_group_for_ecs ecs d = label ∧ decide_row_group ecs d = label in
  (ecs = [] → both (py "NO_EC")) ∧
  (ecs ≠ [] → (∀ ec, ec ∈ ecs → d !! ec = None) → both (py "UNKNOWN")) ∧
  ((∃ ec, ec ∈ ecs ∧ is_Some (d !! ec)) → (∃ ec, ec ∈ ecs ∧ d !! ec = None) →
   both (py "MIXED")) ∧
  (∀ g, ecs ≠ [] → (∀ ec, ec ∈ ecs → d !! ec = Some g) → both g) ∧
  ((∀ ec, ec ∈ ecs → is_Some (d !! ec)) →
   (∃ e1 e2 g1 g2, e1 ∈ ecs ∧ e2 ∈ ecs ∧
                    d !! e1 = Some g1 ∧ d !! e2 = Some g2 ∧ g1 ≠ g2) →
   both (py "MULTIPLE")).
Proof.
  cbv zeta. rewrite decide_row_group_choose.
  split; [|split; [|split; [|split]]].
  - intros ->. by split.
  - intros Hne Hall. split; by apply verdict_unknown.
  - intros Hsome Hnone. split; by apply verdict_mixed.
  - intros g Hne Hall. split; by apply verdict_same.
  - intros Hall Htwo. split; by apply verdict_multiple.
Qed.

(** C7. The outcome depends only on the set of ECs of the list: two lists
    with the same set of ECs get the same label from either resolver, and
    writing an EC twice changes nothing. *)
Theorem resolver_set_semantics :
  (∀ ecs1 ecs2 d,
     (list_to_set ecs1 : gset pystr) = list_to_set ecs2 →
     choose_group_for_ecs ecs1 d = choose_group_for_ecs ecs2 d ∧
     decide_row_group ecs1 d = decide_row_group ecs2 d) ∧
  (∀ d ec,
     choose_group_for_ecs [ec; ec] d = choose_group_for_ecs [ec] d ∧
     decide_row_group [ec; ec] d = decide_row_group [ec] d).
Proof.
  assert (∀ ecs1 ecs2 d,
            (list_to_set ecs1 : gset pystr) = list_to_set ecs2 →
            choose_group_for_ecs ecs1 d = choose_group_for_ecs ecs2 d ∧
            decide_row_group ecs1 d = decide_row_group ecs2 d) as Hsame.
  { intros ecs1 ecs2 d Hset.
    split; [by apply choose_group_for_ecs_set|].
    transitivity (choose_group_for_ecs ecs1 d);
      [apply decide_row_group_choose|].
    transitivity (choose_group_for_ecs ecs2 d);
      [|symmetry; apply decide_row_group_choose].
    by apply choose_group_for_ecs_set. }
  split; [exact Hsame|].
  intros d ec. apply Hsame.
  simpl. by rewrite (assoc_L (∪)), (idemp_L (∪)).
Qed.

(** C10. The resolvers of the two scripts agree on every EC list and every
    dictionary. *)
Theorem resolvers_extensionally_equal ecs d :
  choose_group_for_ecs ecs d = decide_row_group ecs d.
Proof. symmetry. apply decide_row_group_choose. Qed.

End ResolverClaims.

(** ** The name classifier *)

(** Tables without any entry beyond ASCII, to run the definitions on
    concrete ASCII inputs. *)
Definition ascii_tables : Unicode :=
  {| uni_isdecimal := fun _ => false;
     uni_isalpha_num := fun _ => false;
     uni_isspace := fun _ => false;
     uni_ignorecase := fun _ _ => false;
     uni_lower := fun _ c _ => [c] |}.

Section ClassifierClaims.
Import ec_to_type.
Context `{U : Unicode}.

Definition OK : pystr := py "OK".

Lemma classify_co_mt name status :
  status ≠ py "TRANSFERRED" → status ≠ py "DELETED" →
  found (re_search RE_CO_MT name) = true →
  classify name status = py "OTHER".
Proof.
  intros HT HD Hco. unfold classify.
  rewrite decide_False by done. rewrite decide_False by done.
  by rewrite Hco.
Qed.

Lemma classify_s_mt name status :
  classify name status = py "S_MT" →
  found (re_search RE_S_MT name) = true ∨
  (found (re_search RE_MT_WORD name) = true ∧
   found (re_search RE_S_HINT name) = true ∧
   contains (py "s-adenosyl") (lower name) = false).
Proof.
  unfold classify.
  repeat match goal with
         | |- context [decide ?P] => destruct (decide P)
         end; try discriminate.
  do 4 (match goal with
        | |- (if ?b then _ else _) = _ → _ => destruct b; [discriminate|]
        end).
  cbv zeta.
  destruct (found (re_search RE_S_MT name)
            || found (re_search RE_MT_WORD name)
               && found (re_search RE_S_HINT name)
               && negb (contains (py "s-adenosyl") (lower name))) eqn:ES.
  - intros _.
    apply orb_true_iff in ES as [ES|ES]; [by left|right].
    apply andb_true_iff in ES as [ES Hno].
    apply andb_true_iff in ES as [Hmt Hhint].
    apply negb_true_iff in Hno. done.
  - destruct (found (re_search RE_MT_WORD name)); discriminate.
Qed.

(** C5. With status TRANSFERRED the classifier returns TRANSFERRED and with
    status DELETED it returns DELETED, whatever the name. *)
Theorem classify_status_short_circuit (name : pystr) :
  classify name (py "TRANSFERRED") = py "TRANSFERRED" ∧
  classify name (py "DELETED") = py "DELETED".
Proof.
  split; unfold classify.
  - by rewrite decide_True.
  - rewrite decide_False by discriminate. by rewrite decide_True.
Qed.

(** C2, as the code has it. None of the three example names matches the
    Co-methyltransferase pattern and each is classified UNCLEAR; a name that
    does match the pattern is classified OTHER before any other rule, unless
    its status is TRANSFERRED or DELETED. *)
Theorem co_mt_guard_examples :
  (found (re_search RE_CO_MT (py "Cobalt-precorrin-6Y C5-methyltransferase"))
   = false ∧
   classify (py "Cobalt-precorrin-6Y C5-methyltransferase") OK = py "UNCLEAR") ∧
  classify (py "Precorrin-4 C11-methyltransferase") OK = py "UNCLEAR" ∧
  (found (re_search RE_CO_MT (py "Acetate CoA-methyltransferase")) = false ∧
   classify (py "Acetate CoA-methyltransferase") OK = py "UNCLEAR") ∧
  (∀ name status,
     status ≠ py "TRANSFERRED" → status ≠ py "DELETED" →
     found (re_search RE_CO_MT name) = true →
     classify name status = py "OTHER").
Proof.
  split; [|split; [|split]].
  - split; by vm_compute.
  - by vm_compute.
  - split; by vm_compute.
  - apply classify_co_mt.
Qed.

(** C9. The S-adenosylmethionine example is classified UNCLEAR, hence not
    S_MT; its lower-cased name contains "s-adenosyl"; and for every name
    that does, only the S-methyltransferase token can give S_MT. *)
Theorem s_adenosyl_guard :
  classify (py "S-adenosylmethionine-dependent methyltransferase") OK
  = py "UNCLEAR" ∧
  contains (py "s-adenosyl")
           (lower (py "S-adenosylmethionine-dependent methyltransferase"))
  = true ∧
  (∀ name status,
     contains (py "s-adenosyl") (lower name) = true →
     found (re_search RE_S_MT name) = false →
     classify name status ≠ py "S_MT").
Proof.
  split; [by vm_compute|split; [by vm_compute|]].
  intros name status Hin Hs Hc.
  apply classify_s_mt in Hc as [Hc|(_ & _ & Hc)]; congruence.
Qed.

End ClassifierClaims.

(** ** The sectioned-reference parser *)
Module A := assign_groups_to_ec_summary.
Module B := split_mt2_by_group.

Ltac fields :=
  cbn [A.ec_to_group A.current_group B.ec_to_group B.current_group].

Section Parser.
Context `{U : Unicode}.

Implicit Types (raw ec g : pystr) (lines : list pystr).

(** A line that the loops of both parsers treat as a data row: not blank,
    not a header line, not a column-header row, and with a first column
    that is an EC number.  [data_ec] is that EC number. *)
Definition data_ec raw : option pystr :=
  let line := strip raw in
  match line with
  | [] => None
  | _ =>
    if startswith (py "#") line then None
    else if startswith (py "ec" ++ [TAB]) (lower line) then None
    else
      let ec := strip (split_first TAB line) in
      if found (re_fullmatch assign_groups_to_ec_summary.EC_REGEX ec)
      then Some ec else None
  end.

Lemma setdefault_keeps (d : gmap pystr pystr) k v ec g :
  d !! ec = Some g → setdefault k v d !! ec = Some g.
Proof.
  intros H. unfold setdefault. destruct (d !! k) eqn:E; [done|].
  rewrite lookup_insert_ne; [done|]. intros ->. congruence.
Qed.

Lemma setdefault_fresh (d : gmap pystr pystr) k v :
  d !! k = None → setdefault k v d !! k = Some v.
Proof. intros H. unfold setdefault. rewrite H. apply lookup_insert_eq. Qed.

Lemma setdefault_other (d : gmap pystr pystr) k v ec :
  k ≠ ec → setdefault k v d !! ec = d !! ec.
Proof.
  intros H. unfold setdefault. destruct (d !! k); [done|].
  by rewrite lookup_insert_ne.
Qed.

(** Every success of [run] goes through its continuation. *)
Lemma run_star_inv {A} c prev s gr (k : cont (A := A)) a :
  run_star c prev s gr k = Some a →
  ∃ p s', (length s' ≤ length s)%nat ∧ k p s' gr = Some a.
Proof.
  revert prev. induction s as [|x s IH]; intros prev; simpl.
  - intros H. exists prev, []. eauto.
  - destruct (cset_match c x).
    + destruct (run_star c (Some x) s gr k) eqn:E.
      * intros [= ->]. destruct (IH _ E) as (p & s' & Hl & Hk).
        exists p, s'. split; [lia|done].
      * intros H. exists prev, (x :: s). eauto.
    + intros H. exists prev, (x :: s). eauto.
Qed.

Lemma run_inv {A} r prev s gr (k : cont (A := A)) a :
  run r prev s gr k = Some a →
  ∃ p s' gr', (length s' ≤ length s)%nat ∧ k p s' gr' = Some a.
Proof.
  revert prev s gr k. induction r as [|c| |r1 IH1 r2 IH2|r1 IH1 r2 IH2|c|c|r IH];
    intros prev s gr k; simpl.
  - intros H. exists prev, s, gr. eauto.
  - destruct s as [|x s]; [done|]. destruct (cset_match c x); [|done].
    intros H. exists (Some x), s, gr. split; [simpl; lia|done].
  - destruct (boundary prev s); [|done]. intros H. exists prev, s, gr. eauto.
  - intros H. apply IH1 in H as (p & s1 & g1 & Hl1 & H).
    apply IH2 in H as (p' & s2 & g2 & Hl2 & H).
    exists p', s2, g2. split; [lia|done].
  - destruct (run r1 prev s gr k) eqn:E.
    + intros [= ->]. by apply IH1 in E.
    + intros H. by apply IH2 in H.
  - intros H. apply run_star_inv in H as (p & s' & Hl & H). eauto.
  - destruct s as [|x s]; [done|]. destruct (cset_match c x); [|done].
    intros H. apply run_star_inv in H as (p & s' & Hl & H).
    exists p, s', gr. split; [simpl; lia|done].
  - intros H. apply IH in H as (p & s' & g' & Hl & H). eauto.
Qed.

(** A group around [c+] captures at least one character. *)
Lemma run_group_plus {A} c prev s gr (k : cont (A := A)) a :
  run (Grp (Plus c)) prev s gr k = Some a →
  ∃ p s' cap, cap ≠ [] ∧ k p s' (Some cap) = Some a.
Proof.
  simpl. destruct s as [|x s]; [done|]. destruct (cset_match c x); [|done].
  intros H. apply run_star_inv in H as (p & s' & Hl & H).
  exists p, s'. eexists. split; [|exact H].
  replace (length (x :: s) - length s')%nat with (S (length s - length s'))
    by (simpl; lia).
  done.
Qed.

(** *** parse_mt_grouped *)

Definition A_init : A.pstate :=
  {| A.ec_to_group := ∅; A.current_group := None |}.

Lemma A_parse_line_keeps st raw ec g :
  A.ec_to_group st !! ec = Some g →
  A.ec_to_group (A.parse_line st raw) !! ec = Some g.
Proof.
  intros H. unfold A.parse_line. destruct (strip raw) as [|c line]; [done|].
  destruct (startswith _ _); [done|]. destruct (startswith _ _); [done|].
  destruct (A.current_group st); [|done].
  destruct (found _); [|done]. fields. by apply setdefault_keeps.
Qed.

Lemma A_parse_lines_keeps st lines ec g :
  A.ec_to_group st !! ec = Some g →
  A.ec_to_group (A.parse_lines st lines) !! ec = Some g.
Proof.
  revert st. induction lines as [|raw lines IH]; intros st H; [done|].
  apply IH. by apply A_parse_line_keeps.
Qed.

Lemma A_parse_line_skips st raw ec :
  data_ec raw ≠ Some ec → A.ec_to_group st !! ec = None →
  A.ec_to_group (A.parse_line st raw) !! ec = None.
Proof.
  unfold data_ec, A.parse_line. intros Hd H.
  destruct (strip raw) as [|c line]; [done|].
  destruct (startswith _ _); [done|]. destruct (startswith _ _); [done|].
  destruct (A.current_group st); [|done].
  destruct (found _); [|done]. fields.
  rewrite setdefault_other; [done|]. congruence.
Qed.

Lemma A_parse_lines_skips st lines ec :
  (∀ raw, raw ∈ lines → data_ec raw ≠ Some ec) →
  A.ec_to_group st !! ec = None →
  A.ec_to_group (A.parse_lines st lines) !! ec = None.
Proof.
  revert st. induction lines as [|raw lines IH]; intros st Hl H; [done|].
  apply IH.
  - intros r Hr. apply Hl. by right.
  - apply A_parse_line_skips; [apply Hl; left|done].
Qed.

Lemma A_parse_line_records st raw ec g :
  data_ec raw = Some ec → A.current_group st = Some g →
  A.ec_to_group st !! ec = None →
  A.ec_to_group (A.parse_line st raw) !! ec = Some g.
Proof.
  unfold data_ec, A.parse_line. intros Hd Hg H.
  destruct (strip raw) as [|c line]; [done|].
  destruct (startswith _ _); [done|]. destruct (startswith _ _); [done|].
  rewrite Hg. destruct (found _); [|done]. fields.
  injection Hd as <-. by apply setdefault_fresh.
Qed.

Lemma A_first_wins l1 raw l2 ec g :
  (∀ r, r ∈ l1 → data_ec r ≠ Some ec) →
  data_ec raw = Some ec →
  A.current_group (A.parse_lines A_init l1) = Some g →
  A.ec_to_group (A.parse_lines A_init (l1 ++ raw :: l2)) !! ec = Some g.
Proof.
  intros Hl1 Hraw Hg. unfold A.parse_lines. rewrite foldl_app. simpl.
  apply A_parse_lines_keeps. apply A_parse_line_records; [done..|].
  by apply A_parse_lines_skips.
Qed.

(** *** parse_grouped_sectioned *)

Definition B_init : B.pstate :=
  {| B.ec_to_group := ∅; B.current_group := None |}.

Lemma B_header_group line m g :
  re_match B.HEADER line = Some m → m_group1 m = Some g → g ≠ [].
Proof.
  unfold re_match, B.HEADER, seq. cbn [foldr].
  change (run (Cat ?a ?b) ?p ?s ?gr ?k)
    with (run a p s gr (fun p' s' gr' => run b p' s' gr' k)).
  intros H. apply run_inv in H as (p1 & s1 & g1 & _ & H).
  change (run (Cat ?a ?b) ?p ?s ?gr ?k)
    with (run a p s gr (fun p' s' gr' => run b p' s' gr' k)) in H.
  apply run_inv in H as (p2 & s2 & g2 & _ & H).
  change (run (Cat ?a ?b) ?p ?s ?gr ?k)
    with (run a p s gr (fun p' s' gr' => run b p' s' gr' k)) in H.
  apply run_group_plus in H as (p3 & s3 & cap & Hcap & H).
  injection H as <-. simpl. congruence.
Qed.

Lemma B_parse_line_group st raw :
  (∀ g, B.current_group st = Some g → g ≠ []) →
  ∀ g, B.current_group (B.parse_line st raw) = Some g → g ≠ [].
Proof.
  intros Hst g. unfold B.parse_line.
  destruct (strip raw) as [|c line]; [by apply Hst|].
  destruct (startswith _ _).
  { fields. destruct (re_match _ _) as [m|] eqn:E; [|done].
    by apply (B_header_group _ _ _ E). }
  destruct (startswith _ _); [by apply Hst|].
  destruct (B.current_group st) as [[|c' g']|] eqn:Eg;
    rewrite ?Eg; try (by apply Hst; rewrite ?Eg).
  destruct (found _); fields; rewrite ?Eg; by apply Hst; rewrite ?Eg.
Qed.

Lemma B_parse_lines_group lines st :
  (∀ g, B.current_group st = Some g → g ≠ []) →
  ∀ g, B.current_group (B.parse_lines st lines) = Some g → g ≠ [].
Proof.
  revert st. induction lines as [|raw lines IH]; intros st Hst; [done|].
  apply IH. by apply B_parse_line_group.
Qed.

Lemma B_parse_line_keeps st raw ec g :
  B.ec_to_group st !! ec = Some g →
  B.ec_to_group (B.parse_line st raw) !! ec = Some g.
Proof.
  intros H. unfold B.parse_line. destruct (strip raw) as [|c line]; [done|].
  destruct (startswith _ _); [done|]. destruct (startswith _ _); [done|].
  destruct (B.current_group st) as [[|c' g']|]; [done| |done].
  destruct (found _); [|done]. fields. by apply setdefault_keeps.
Qed.

Lemma B_parse_lines_keeps st lines ec g :
  B.ec_to_group st !! ec = Some g →
  B.ec_to_group (B.parse_lines st lines) !! ec = Some g.
Proof.
  revert st. induction lines as [|raw lines IH]; intros st H; [done|].
  apply IH. by apply B_parse_line_keeps.
Qed.

Lemma B_parse_line_skips st raw ec :
  data_ec raw ≠ Some ec → B.ec_to_group st !! ec = None →
  B.ec_to_group (B.parse_line st raw) !! ec = None.
Proof.
  unfold data_ec, B.parse_line. intros Hd H.
  destruct (strip raw) as [|c line]; [done|].
  destruct (startswith _ _); [done|]. destruct (startswith _ _); [done|].
  destruct (B.current_group st) as [[|c' g']|]; [done| |done].
  change B.EC_REGEX with A.EC_REGEX.
  destruct (found _); [|done]. fields.
  rewrite setdefault_other; [done|]. congruence.
Qed.

Lemma B_parse_lines_skips st lines ec :
  (∀ raw, raw ∈ lines → data_ec raw ≠ Some ec) →
  B.ec_to_group st !! ec = None →
  B.ec_to_group (B.parse_lines st lines) !! ec = None.
Proof.
  revert st. induction lines as [|raw lines IH]; intros st Hl H; [done|].
  apply IH.
  - intros r Hr. apply Hl. by right.
  - apply B_parse_line_skips; [apply Hl; left|done].
Qed.

Lemma B_parse_line_records st raw ec g :
  data_ec raw = Some ec → B.current_group st = Some g → g ≠ [] →
  B.ec_to_group st !! ec = None →
  B.ec_to_group (B.parse_line st raw) !! ec = Some g.
Proof.
  unfold data_ec, B.parse_line. intros Hd Hg Hne H.
  destruct (strip raw) as [|c line]; [done|].
  destruct (startswith _ _); [done|]. destruct (startswith _ _); [done|].
  rewrite Hg. destruct g as [|c' g']; [done|].
  change B.EC_REGEX with A.EC_REGEX.
  destruct (found _); [|done]. fields.
  injection Hd as <-. by apply setdefault_fresh.
Qed.

Lemma B_first_wins l1 raw l2 ec g :
  (∀ r, r ∈ l1 → data_ec r ≠ Some ec) →
  data_ec raw = Some ec →
  B.current_group (B.parse_lines B_init l1) = Some g →
  B.ec_to_group (B.parse_lines B_init (l1 ++ raw :: l2)) !! ec = Some g.
Proof.
  intros Hl1 Hraw Hg. unfold B.parse_lines. rewrite foldl_app. simpl.
  apply B_parse_lines_keeps. apply B_parse_line_records; [done..| |].
  - by apply (B_parse_lines_group l1 B_init).
  - by apply B_parse_lines_skips.
Qed.

End Parser.

(** ** The runs *)
Module M := MT_split_by_ec.

Section MainClaims.
Context `{U : Unicode} `{F : Files}.

Lemma A_main_no_mappings a :
  A.parse_mt_grouped (A.mt_grouped_tsv a) = Ok ∅ →
  A.main a = Raise (RuntimeError NoMappings).
Proof. intros H. unfold A.main. rewrite H. reflexivity. Qed.

Lemma B_main_no_mappings a :
  B.load_ec_to_group (B.mt_grouped_tsv a) = Ok ∅ →
  B.main a = Raise (RuntimeError NoMappings).
Proof. intros H. unfold B.main. rewrite H. reflexivity. Qed.

Lemma A_main_ok a out :
  A.main a = Ok out →
  ∃ d, A.parse_mt_grouped (A.mt_grouped_tsv a) = Ok d ∧ d ≠ ∅.
Proof.
  unfold A.main. destruct (A.parse_mt_grouped _) as [d|e]; [|done].
  cbn [mbind result_bind]. case_bool_decide; [done|]. eauto.
Qed.

Lemma B_main_ok a out :
  B.main a = Ok out →
  ∃ d, B.load_ec_to_group (B.mt_grouped_tsv a) = Ok d ∧ d ≠ ∅.
Proof.
  unfold B.main. destruct (B.load_ec_to_group _) as [d|e]; [|done].
  cbn [mbind result_bind]. case_bool_decide; [done|]. eauto.
Qed.








(** C8. In both scripts a reference that yields an empty dictionary ends the
    run with the "0 mappings" RuntimeError, and a run that produces its
    labelled table has loaded a dictionary that is not empty. *)
Theorem empty_mapping_is_fatal :
  (∀ a, A.parse_mt_grouped (A.mt_grouped_tsv a) = Ok ∅ →
        A.main a = Raise (RuntimeError NoMappings)) ∧
  (∀ a, B.load_ec_to_group (B.mt_grouped_tsv a) = Ok ∅ →
        B.main a = Raise (RuntimeError NoMappings)) ∧
  (∀ a out, A.main a = Ok out →
            ∃ d, A.parse_mt_grouped (A.mt_grouped_tsv a) = Ok d ∧ d ≠ ∅) ∧
  (∀ a out, B.main a = Ok out →
            ∃ d, B.load_ec_to_group (B.mt_grouped_tsv a) = Ok d ∧ d ≠ ∅).
Proof.
  split; [|split; [|split]].
  - apply A_main_no_mappings.
  - apply B_main_no_mappings.
  - apply A_main_ok.
  - apply B_main_ok.
Qed.


End MainClaims.

(** ** EC extraction *)
Section Extraction.
Context `{U : Unicode}.

Definition DOT : N := 46.
Definition HYPHEN : N := 45.

(** A non-empty run of decimal digits: one numeric component. *)
Definition digits (l : pystr) : Prop :=
  l ≠ [] ∧ Forall (fun x => isdecimal x = true) l.

(** The EC string with components [a], [b], [c], [d]. *)
Definition ec_number (a b c d : pystr) : pystr :=
  a ++ DOT :: b ++ DOT :: c ++ DOT :: d.

(** The text before the EC number does not end in a word character, a dot
    or a hyphen. *)
Definition clear_before (pre : pystr) : Prop :=
  match last pre with
  | Some z => isword z = false ∧ z ≠ DOT ∧ z ≠ HYPHEN
  | None => True
  end.

(** The character before the position reached after reading [l]. *)
Definition lastc (prev : option N) (l : pystr) : option N :=
  foldl (fun _ x => Some x) prev l.

Lemma lastc_snoc p l z : lastc p (l ++ [z]) = Some z.
Proof. unfold lastc. by rewrite foldl_app. Qed.

Lemma isdecimal_isword x : isdecimal x = true → isword x = true.
Proof. intros H. unfold isword, isalnum. by rewrite H. Qed.

Lemma not_word_not_decimal x : isword x = false → isdecimal x = false.
Proof.
  intros H. destruct (isdecimal x) eqn:E; [|done].
  apply isdecimal_isword in E. congruence.
Qed.

Lemma word_before_digits p l : digits l → word_before (lastc p l) = true.
Proof.
  intros [Hne Hall]. revert p. induction Hall as [|x l Hx Hall IH]; [done|].
  intros p. change (lastc p (x :: l)) with (lastc (Some x) l).
  destruct l as [|y l]; [by apply isdecimal_isword|].
  by apply IH.
Qed.

Lemma word_after_digits l rest : digits l → word_after (l ++ rest) = true.
Proof.
  intros [Hne Hall]. destruct Hall as [|x l Hx _]; [done|].
  by apply isdecimal_isword.
Qed.

(** The head of the text is not a decimal digit. *)
Definition stops (rest : pystr) : Prop :=
  match rest with
  | x :: _ => isdecimal x = false
  | [] => True
  end.

Lemma stops_not_word rest : word_after rest = false → stops rest.
Proof.
  destruct rest as [|x rest]; [done|]. apply not_word_not_decimal.
Qed.

(** *** The match at the EC number *)

(** Greedy [\d*]: the whole run is taken when the rest of the pattern
    accepts what follows. *)
Lemma run_star_digits {A} prev ds rest gr (k : cont (A := A)) a :
  Forall (fun x => isdecimal x = true) ds → stops rest →
  k (lastc prev ds) rest gr = Some a →
  run_star CDigit prev (ds ++ rest) gr k = Some a.
Proof.
  intros Hall Hrest. revert prev.
  induction Hall as [|x ds Hx Hall IH]; intros prev Hk.
  - destruct rest as [|y rest]; [done|]. simpl in *. by rewrite Hrest.
  - simpl. rewrite Hx. rewrite (IH (Some x)); done.
Qed.

Lemma run_plus_digits {A} R prev ds rest gr (k : cont (A := A)) a :
  digits ds → stops rest →
  run R (lastc prev ds) rest gr k = Some a →
  run (Cat (Plus CDigit) R) prev (ds ++ rest) gr k = Some a.
Proof.
  intros [Hne Hall] Hrest Hk. destruct Hall as [|x ds Hx Hall]; [done|].
  simpl. rewrite Hx. by apply run_star_digits.
Qed.

Lemma run_dot {A} R prev rest gr (k : cont (A := A)) a :
  run R (Some DOT) rest gr k = Some a →
  run (Cat (Cat (Chr (CLit DOT)) Eps) R) prev (DOT :: rest) gr k = Some a.
Proof. intros H. simpl. exact H. Qed.

Lemma EC_REGEX_eq :
  M.EC_REGEX =
  Cat Bnd (Cat (Plus CDigit) (Cat (Cat (Chr (CLit DOT)) Eps)
  (Cat (Plus CDigit) (Cat (Cat (Chr (CLit DOT)) Eps)
  (Cat (Plus CDigit) (Cat (Cat (Chr (CLit DOT)) Eps)
  (Cat (Alt (Plus CDigit) (Cat (Chr (CLit HYPHEN)) Eps)) (Cat Bnd Eps)))))))).
Proof. reflexivity. Qed.

(** No match of the EC pattern starts on a character that is not a digit,
    or at the end of the text. *)
Lemma EC_REGEX_no_start {A} prev s (k : cont (A := A)) :
  stops s → run M.EC_REGEX prev s None k = None.
Proof.
  intros H. rewrite EC_REGEX_eq.
  change (run (Cat Bnd ?R) prev s None k)
    with (if boundary prev s then run R prev s None k else None).
  destruct (boundary prev s); [|done].
  destruct s as [|x s]; [done|]. simpl in H. simpl. by rewrite H.
Qed.

(** An EC number with four numeric components, not preceded and not
    followed by a word character, is matched as a whole. *)
Lemma EC_REGEX_match prev a b c d post :
  digits a → digits b → digits c → digits d →
  word_before prev = false → word_after post = false →
  run M.EC_REGEX prev (ec_number a b c d ++ post) None accept
  = Some {| m_rest := post; m_group1 := None |}.
Proof.
  intros Ha Hb Hc Hd Hprev Hpost. rewrite EC_REGEX_eq. unfold ec_number.
  repeat (rewrite <- app_assoc || rewrite <- app_comm_cons).
  change (run (Cat Bnd ?R) prev ?s None accept)
    with (if boundary prev s then run R prev s None accept else None).
  unfold boundary at 1. rewrite Hprev, (word_after_digits a) by done.
  cbn [xorb].
  apply run_plus_digits; [done|by simpl|]. apply run_dot.
  apply run_plus_digits; [done|by simpl|]. apply run_dot.
  apply run_plus_digits; [done|by simpl|]. apply run_dot.
  change (run (Cat (Alt ?r1 ?r2) ?R) ?p ?s ?gr ?k)
    with (match run (Cat r1 R) p s gr k with
          | Some m => Some m
          | None => run (Cat r2 R) p s gr k
          end).
  rewrite (run_plus_digits (Cat Bnd Eps) (Some DOT) d post None accept
             {| m_rest := post; m_group1 := None |});
    [done|done|by apply stops_not_word|].
  simpl. unfold boundary. rewrite Hpost, word_before_digits by done. done.
Qed.

(** *** Matching is local

    A character [z] that no item of the pattern accepts stops every match
    attempt that starts before it: whether the attempt succeeds does not
    depend on the text after [z]. *)

Fixpoint rejects (r : regex) (z : N) : Prop :=
  match r with
  | Eps | Bnd => True
  | Chr c | Star c | Plus c => cset_match c z = false
  | Cat r1 r2 | Alt r1 r2 => rejects r1 z ∧ rejects r2 z
  | Grp r' => rejects r' z
  end.

Section Local.
Context {A1 A2 : Type} (z : N) (rest1 rest2 : pystr).

(** Two continuations fail together at every position up to [z]. *)
Definition agree (k1 : cont (A := A1)) (k2 : cont (A := A2)) : Prop :=
  ∀ p q g1 g2,
    k1 p (q ++ z :: rest1) g1 = None ↔ k2 p (q ++ z :: rest2) g2 = None.

Lemma run_star_local c k1 k2 prev q g1 g2 :
  cset_match c z = false → agree k1 k2 →
  run_star c prev (q ++ z :: rest1) g1 k1 = None
  ↔ run_star c prev (q ++ z :: rest2) g2 k2 = None.
Proof.
  intros Hz Hk. revert prev. induction q as [|x q IH]; intros prev.
  - cbn [app run_star]. rewrite Hz. apply (Hk prev []).
  - cbn [app run_star]. destruct (cset_match c x).
    + specialize (IH (Some x)).
      pose proof (Hk prev (x :: q) g1 g2) as Hx. cbn [app] in Hx.
      destruct (run_star c (Some x) (q ++ z :: rest1) g1 k1),
               (run_star c (Some x) (q ++ z :: rest2) g2 k2);
        try done; destruct IH as [I1 I2];
        try (by discriminate I1); try (by discriminate I2).
    + apply (Hk prev (x :: q)).
Qed.

Lemma run_local r :
  rejects r z →
  ∀ k1 k2 prev q g1 g2,
    agree k1 k2 →
    run r prev (q ++ z :: rest1) g1 k1 = None
    ↔ run r prev (q ++ z :: rest2) g2 k2 = None.
Proof.
  induction r as [|c| |r1 IH1 r2 IH2|r1 IH1 r2 IH2|c|c|r IH];
    intros Hz k1 k2 prev q g1 g2 Hk; cbn [run].
  - apply Hk.
  - destruct q as [|x q]; cbn [app].
    + simpl in Hz. by rewrite Hz.
    + destruct (cset_match c x); [apply Hk|done].
  - assert (boundary prev (q ++ z :: rest1)
            = boundary prev (q ++ z :: rest2)) as ->
      by (by destruct q).
    destruct (boundary prev (q ++ z :: rest2)); [apply Hk|done].
  - destruct Hz as [Hz1 Hz2]. apply IH1; [done|].
    intros p q' g1' g2'. by apply IH2.
  - destruct Hz as [Hz1 Hz2].
    specialize (IH1 Hz1 k1 k2 prev q g1 g2 Hk).
    specialize (IH2 Hz2 k1 k2 prev q g1 g2 Hk).
    destruct (run r1 prev (q ++ z :: rest1) g1 k1),
             (run r1 prev (q ++ z :: rest2) g2 k2);
      try done; destruct IH1 as [I1 I2];
      try (by discriminate I1); try (by discriminate I2).
  - by apply run_star_local.
  - destruct q as [|x q]; cbn [app].
    + simpl in Hz. by rewrite Hz.
    + destruct (cset_match c x); [by apply run_star_local|done].
  - apply IH; [done|]. intros p q' g1' g2'. apply Hk.
Qed.

End Local.

Lemma EC_REGEX_rejects z :
  isdecimal z = false → z ≠ DOT → z ≠ HYPHEN → rejects M.EC_REGEX z.
Proof.
  intros Hd Hdot Hhyp. rewrite EC_REGEX_eq. cbn [rejects cset_match].
  rewrite Hd, (proj2 (N.eqb_neq DOT z)), (proj2 (N.eqb_neq HYPHEN z))
    by done.
  done.
Qed.

(** *** The scan *)

(** The scan passes the characters of the last match. *)
Lemma findall_skip r prev xs rest :
  findall_from r prev (xs ++ rest) (length xs)
  = findall_from r (lastc prev xs) rest 0.
Proof.
  revert prev. induction xs as [|x xs IH]; intros prev; [done|].
  simpl. apply IH.
Qed.

Lemma findall_end prev : findall_from M.EC_REGEX prev [] 0 = [].
Proof. cbn [findall_from]. by rewrite EC_REGEX_no_start. Qed.

(** A scan that finds nothing has failed at its first position, and finds
    nothing from the next position on. *)
Lemma findall_nil_inv r prev x s :
  findall_from r prev (x :: s) 0 = [] →
  run r prev (x :: s) None accept = None ∧ findall_from r (Some x) s 0 = [].
Proof.
  cbn [findall_from].
  destruct (run r prev (x :: s) None accept) as [m|]; [|done].
  by destruct (matched (x :: s) m).
Qed.

(** A match that is not empty is recorded, and the scan resumes after it. *)
Lemma findall_match r prev x s m y txt :
  run r prev (x :: s) None accept = Some m →
  matched (x :: s) m = y :: txt →
  findall_from r prev (x :: s) 0
  = (y :: txt) :: findall_from r (Some x) s (length txt).
Proof.
  intros Hrun Hm. cbn [findall_from]. rewrite Hrun, Hm.
  do 2 f_equal. cbn [length]. lia.
Qed.

(** The scan of a text that holds no EC number and ends in [z] finds
    nothing in it when more text follows. *)
Lemma findall_before prev q z rest :
  isdecimal z = false → z ≠ DOT → z ≠ HYPHEN →
  findall_from M.EC_REGEX prev (q ++ [z]) 0 = [] →
  findall_from M.EC_REGEX prev ((q ++ [z]) ++ rest) 0
  = findall_from M.EC_REGEX (Some z) rest 0.
Proof.
  intros Hd Hdot Hhyp. revert prev.
  induction q as [|x q IH]; intros prev Hnil.
  - cbn [app findall_from]. by rewrite EC_REGEX_no_start.
  - cbn [app] in Hnil. apply findall_nil_inv in Hnil as [Hrun Hnil].
    cbn [app findall_from].
    assert (run M.EC_REGEX prev (x :: (q ++ [z]) ++ rest) None accept = None)
      as ->.
    { rewrite <- app_assoc.
      apply (run_local z [] rest M.EC_REGEX (EC_REGEX_rejects z Hd Hdot Hhyp)
               accept accept prev (x :: q) None None); [done|exact Hrun]. }
    by apply IH.
Qed.

(** The scan of the text after the EC number does not depend on the
    character before it. *)
Lemma findall_after p post :
  stops post →
  findall_from M.EC_REGEX p post 0 = findall_from M.EC_REGEX None post 0.
Proof.
  intros Hpost. destruct post as [|x post].
  - by rewrite !findall_end.
  - cbn [findall_from]. by rewrite !EC_REGEX_no_start.
Qed.

Lemma ec_number_cons a b c d :
  digits a → ∃ x tl, ec_number a b c d = x :: tl.
Proof.
  intros [Hne _]. destruct a as [|x a]; [done|].
  exists x. eexists. reflexivity.
Qed.

Lemma findall_single pre post a b c d :
  digits a → digits b → digits c → digits d →
  re_findall M.EC_REGEX pre = [] → re_findall M.EC_REGEX post = [] →
  clear_before pre → word_after post = false →
  re_findall M.EC_REGEX (pre ++ ec_number a b c d ++ post)
  = [ec_number a b c d].
Proof.
  intros Ha Hb Hc Hd Hpre Hpost Hbefore Hafter.
  unfold re_findall in *.
  assert (∃ p, word_before p = false ∧
               findall_from M.EC_REGEX None
                 (pre ++ ec_number a b c d ++ post) 0
               = findall_from M.EC_REGEX p (ec_number a b c d ++ post) 0)
    as (p & Hp & ->).
  { unfold clear_before in Hbefore.
    destruct (decide (pre = [])) as [->|Hne].
    - by exists None.
    - destruct (exists_last Hne) as (q & z & ->).
      rewrite last_snoc in Hbefore. destruct Hbefore as (Hw & Hdot & Hhyp).
      exists (Some z). split; [done|].
      apply findall_before; [by apply not_word_not_decimal|done..]. }
  pose proof (EC_REGEX_match p a b c d post Ha Hb Hc Hd Hp Hafter) as Hrun.
  destruct (ec_number_cons a b c d Ha) as (x & tl & E).
  rewrite E in Hrun |- *. cbn [app] in Hrun |- *.
  rewrite (findall_match _ _ _ _ _ x tl Hrun).
  - rewrite findall_skip.
    rewrite findall_after by (by apply stops_not_word).
    by rewrite Hpost.
  - unfold matched. cbn [m_rest].
    replace (length (x :: tl ++ post) - length post)%nat
      with (length (x :: tl)) by (cbn [length]; rewrite length_app; lia).
    change (x :: tl ++ post) with ((x :: tl) ++ post).
    by rewrite take_app_length.
Qed.

Lemma sorted_set_singleton (x : pystr) :
  merge_sort str_le (elements (list_to_set [x] : gset pystr)) = [x].
Proof.
  cbn [list_to_set foldr]. rewrite (right_id_L ∅ (∪)).
  rewrite elements_singleton. reflexivity.
Qed.

(** C3, as the code has it. An EC number with four numeric components is
    extracted alone from a text in which the part before it and the part
    after it hold no match of the EC pattern, the character before it, if
    any, is not a word character, a dot or a hyphen, and the character
    after it, if any, is not a word character. *)
Theorem extract_single_ec (pre post a b c d : pystr) :
  digits a → digits b → digits c → digits d →
  re_findall M.EC_REGEX pre = [] → re_findall M.EC_REGEX post = [] →
  clear_before pre → word_after post = false →
  M.extract_ec_list (PStr (pre ++ ec_number a b c d ++ post))
  = [ec_number a b c d].
Proof.
  intros Ha Hb Hc Hd Hpre Hpost Hbefore Hafter.
  unfold M.extract_ec_list.
  rewrite findall_single by done. apply sorted_set_singleton.
Qed.

End Extraction.

(** ** Worked instances *)

Definition demo_dict : gmap pystr pystr :=
  <[py "2.1.1.1" := py "N_MT"]> (<[py "2.1.1.63" := py "C_MT"]> ∅).

Ltac in_list H :=
  repeat (apply elem_of_cons in H as [->|H]); [..|by apply elem_of_nil in H].

Lemma resolver_five_way_partition_witness :
  let both ecs (label : pystr) :=
    A.choose_group_for_ecs ecs demo_dict = label ∧
    B.decide_row_group ecs demo_dict = label in
  both [] (py "NO_EC") ∧
  both [py "9.9.9.9"] (py "UNKNOWN") ∧
  both [py "2.1.1.1"; py "9.9.9.9"] (py "MIXED") ∧
  both [py "2.1.1.1"; py "2.1.1.1"] (py "N_MT") ∧
  both [py "2.1.1.1"; py "2.1.1.63"] (py "MULTIPLE").
Proof.
  cbv zeta. split; [|split; [|split; [|split]]].
  - destruct (resolver_five_way_partition [] demo_dict) as (H & _).
    by apply H.
  - destruct (resolver_five_way_partition [py "9.9.9.9"] demo_dict)
      as (_ & H & _).
    apply H; [done|]. intros ec Hin. in_list Hin. by vm_compute.
  - destruct (resolver_five_way_partition
                [py "2.1.1.1"; py "9.9.9.9"] demo_dict) as (_ & _ & H & _).
    apply H.
    + exists (py "2.1.1.1"). split; [left|by vm_compute; eauto].
    + exists (py "9.9.9.9"). split; [right; left|by vm_compute].
  - destruct (resolver_five_way_partition
                [py "2.1.1.1"; py "2.1.1.1"] demo_dict) as (_ & _ & _ & H & _).
    apply H; [done|]. intros ec Hin. in_list Hin; by vm_compute.
  - destruct (resolver_five_way_partition
                [py "2.1.1.1"; py "2.1.1.63"] demo_dict) as (_ & _ & _ & _ & H).
    apply H.
    + intros ec Hin. in_list Hin; by vm_compute; eauto.
    + exists (py "2.1.1.1"), (py "2.1.1.63"), (py "N_MT"), (py "C_MT").
      split; [left|]. split; [right; left|].
      split; [by vm_compute|]. split; [by vm_compute|]. discriminate.
Defined.

Lemma resolver_set_semantics_witness :
  A.choose_group_for_ecs [py "2.1.1.1"; py "2.1.1.63"; py "2.1.1.1"] demo_dict
  = A.choose_group_for_ecs [py "2.1.1.63"; py "2.1.1.1"] demo_dict ∧
  B.decide_row_group [py "2.1.1.1"; py "2.1.1.63"; py "2.1.1.1"] demo_dict
  = B.decide_row_group [py "2.1.1.63"; py "2.1.1.1"] demo_dict.
Proof.
  apply (proj1 resolver_set_semantics).
  by vm_compute.
Defined.

(** C2 as stated fails: the second and the third example name are not
    classified C_MT and OTHER. *)
Lemma co_mt_guard_counterexample :
  (∀ U : Unicode,
     ec_to_type.classify (py "Precorrin-4 C11-methyltransferase") OK
     ≠ py "C_MT") ∧
  (∀ U : Unicode,
     ec_to_type.classify (py "Acetate CoA-methyltransferase") OK
     ≠ py "OTHER").
Proof. split; intros U; by vm_compute. Qed.

Lemma co_mt_guard_examples_witness :
  ec_to_type.classify (U := ascii_tables)
    (py "precorrin Co-methyltransferase") OK = py "OTHER".
Proof.
  apply (proj2 (proj2 (proj2 (co_mt_guard_examples (U := ascii_tables))))).
  - discriminate.
  - discriminate.
  - by vm_compute.
Defined.

Lemma s_adenosyl_guard_witness :
  ec_to_type.classify (U := ascii_tables)
    (py "S-adenosylmethionine-dependent methyltransferase") OK ≠ py "S_MT".
Proof.
  apply (proj2 (proj2 (s_adenosyl_guard (U := ascii_tables)))).
  - by vm_compute.
  - by vm_compute.
Defined.

Definition LF : N := 10.

(** A reference with the EC 2.1.1.1 under the O_MT header and again under
    the N_MT header. *)
Definition demo_reference : pystr :=
  py "# O_MT (1)" ++ [LF] ++
  py "ec" ++ [TAB] ++ py "name" ++ [TAB] ++ py "status" ++ [LF] ++
  py "2.1.1.1" ++ [TAB] ++ py "x O-methyltransferase" ++ [TAB] ++ py "OK" ++ [LF] ++
  [LF] ++
  py "# N_MT (1)" ++ [LF] ++
  py "ec" ++ [TAB] ++ py "name" ++ [TAB] ++ py "status" ++ [LF] ++
  py "2.1.1.1" ++ [TAB] ++ py "y N-methyltransferase" ++ [TAB] ++ py "OK" ++ [LF].

(** A table without EC column, with one row. *)
Definition demo_table : DataFrame :=
  {| columns := [py "Entry"];
     rows := [{[ py "Entry" := py "P12345" ]}] |}.

Definition demo_files : Files :=
  {| read_text := fun _ => Ok demo_reference;
     read_csv := fun _ => Ok demo_table |}.

(** An empty reference file, which pandas reads as an empty table. *)
Definition empty_files : Files :=
  {| read_text := fun _ => Ok [];
     read_csv := fun _ => Ok {| columns := [py "ec"; py "group"]; rows := [] |} |}.

Definition demo_args_A : A.args :=
  {| A.mt_grouped_tsv := py "MT_grouped.tsv";
     A.ec_summary_tsv := py "MT2_EC_summary.tsv";
     A.ec_col := py "EC_key" |}.

Definition demo_args_B : B.args :=
  {| B.mt_grouped_tsv := py "MT_grouped.tsv";
     B.mt2_tsv := py "MT2.tsv";
     B.ec_col := py "EC number" |}.


Lemma empty_mapping_is_fatal_witness :
  A.main (U := ascii_tables) (F := empty_files) demo_args_A
  = Raise (RuntimeError NoMappings) ∧
  B.main (U := ascii_tables) (F := empty_files) demo_args_B
  = Raise (RuntimeError NoMappings).
Proof.
  split.
  - apply (proj1 (empty_mapping_is_fatal (U := ascii_tables) (F := empty_files))).
    reflexivity.
  - apply (proj1 (proj2 (empty_mapping_is_fatal
                           (U := ascii_tables) (F := empty_files)))).
    reflexivity.
Defined.





(** C3 as stated fails: the EC number is not found after a letter, is read
    as a longer number before a digit, is shadowed by a match that starts in
    the text before it, and comes second after a wildcard form that only
    matches because the EC number follows; none of the surrounding texts
    holds a match of the EC pattern. *)
Lemma extract_single_ec_counterexample :
  (∀ U : Unicode,
     M.extract_ec_list (PStr (py "x" ++ py "2.1.1.1")) = [] ∧
     M.extract_ec_list (PStr (py "x")) = []) ∧
  (∀ U : Unicode,
     M.extract_ec_list (PStr (py "2.1.1.1" ++ py "5")) = [py "2.1.1.15"] ∧
     M.extract_ec_list (PStr (py "5")) = []) ∧
  (∀ U : Unicode,
     M.extract_ec_list (PStr (py "1." ++ py "2.1.1.1")) = [py "1.2.1.1"] ∧
     M.extract_ec_list (PStr (py "1.")) = []) ∧
  (∀ U : Unicode,
     M.extract_ec_list (PStr (py "1.1.1.-" ++ py "2.1.1.1"))
     = [py "1.1.1.-"; py "2.1.1.1"] ∧
     M.extract_ec_list (PStr (py "1.1.1.-")) = []).
Proof. repeat split; by vm_compute. Qed.

(** The wildcard form is not found at the end of a text or before a
    character that is not a word character. *)
Example extract_wildcard_at_end :
  ∀ U : Unicode,
    M.extract_ec_list (PStr (py "2.1.1.-")) = [] ∧
    M.extract_ec_list (PStr (py "(2.1.1.-)")) = [] ∧
    M.extract_ec_list (PStr (py "2.1.1.-x")) = [py "2.1.1.-"].
Proof. intros U. repeat split; by vm_compute. Qed.

Lemma extract_single_ec_witness :
  M.extract_ec_list (U := ascii_tables)
    (PStr (py "In 2019 (v1.2), EC:2.1.1.63; PubMed 12345."))
  = [py "2.1.1.63"].
Proof.
  apply (extract_single_ec (U := ascii_tables)
           (py "In 2019 (v1.2), EC:") (py "; PubMed 12345.")
           (py "2") (py "1") (py "1") (py "63")).
  - split; [discriminate|]. repeat constructor.
  - split; [discriminate|]. repeat constructor.
  - split; [discriminate|]. repeat constructor.
  - split; [discriminate|]. repeat constructor.
  - by vm_compute.
  - by vm_compute.
  - by vm_compute.
  - reflexivity.
Defined.

(** * Further properties of the scripts *)

(** ** What the EC pattern matches *)
Section Shape.
Context `{U : Unicode}.

(** The last component of a match: a number or the wildcard. *)
Definition last_component (d : pystr) : Prop := digits d ∨ d = [HYPHEN].

(** A text of the form a.b.c.d with numeric a, b, c and d numeric or "-". *)
Definition ec_shaped (ec : pystr) : Prop :=
  ∃ a b c d, digits a ∧ digits b ∧ digits c ∧ last_component d ∧
             ec = ec_number a b c d.

(** A text of the form a.b.c.d with four numeric components. *)
Definition ec_numeric (ec : pystr) : Prop :=
  ∃ a b c d, digits a ∧ digits b ∧ digits c ∧ digits d ∧
             ec = ec_number a b c d.

Lemma lastc_nonempty p l : l ≠ [] → lastc p l = last l.
Proof.
  revert p. induction l as [|x l IH]; intros p Hne; [done|].
  change (lastc p (x :: l)) with (lastc (Some x) l).
  destruct l as [|y l]; [done|]. rewrite IH by done. by rewrite last_cons_cons.
Qed.

(** A success of greedy [c*] has read a run of accepted characters. *)
Lemma run_star_split {A} c prev s gr (k : cont (A := A)) a :
  run_star c prev s gr k = Some a →
  ∃ ds s', s = ds ++ s' ∧ Forall (fun x => cset_match c x = true) ds ∧
           k (lastc prev ds) s' gr = Some a.
Proof.
  revert prev. induction s as [|x s IH]; intros prev; cbn [run_star].
  - intros H. by exists [], [].
  - destruct (cset_match c x) eqn:Ex.
    + destruct (run_star c (Some x) s gr k) as [a'|] eqn:E.
      * intros [= ->]. destruct (IH _ E) as (ds & s' & -> & Hds & Hk).
        exists (x :: ds), s'. split; [done|]. split; [by constructor|done].
      * intros H. by exists [], (x :: s).
    + intros H. by exists [], (x :: s).
Qed.

Lemma run_plus_inv {A} R prev s gr (k : cont (A := A)) a :
  run (Cat (Plus CDigit) R) prev s gr k = Some a →
  ∃ ds s', s = ds ++ s' ∧ digits ds ∧ run R (lastc prev ds) s' gr k = Some a.
Proof.
  cbn [run]. destruct s as [|x s]; [done|].
  destruct (cset_match CDigit x) eqn:Ex; [|done].
  intros H. apply run_star_split in H as (ds & s' & -> & Hds & Hk).
  exists (x :: ds), s'. split; [done|]. split; [|done].
  split; [done|]. by constructor.
Qed.

Lemma run_dot_inv {A} R prev s gr (k : cont (A := A)) a :
  run (Cat (Cat (Chr (CLit DOT)) Eps) R) prev s gr k = Some a →
  ∃ s', s = DOT :: s' ∧ run R (Some DOT) s' gr k = Some a.
Proof.
  cbn [run cset_match]. destruct s as [|x s]; [done|].
  destruct (DOT =? x) eqn:Ex; [|done].
  apply N.eqb_eq in Ex as <-. intros H. by exists s.
Qed.

Lemma run_bnd_inv {A} R prev s gr (k : cont (A := A)) a :
  run (Cat Bnd R) prev s gr k = Some a →
  boundary prev s = true ∧ run R prev s gr k = Some a.
Proof. cbn [run]. by destruct (boundary prev s). Qed.

(** Every match of the EC pattern reads a text of the shape a.b.c.d and
    ends at a word boundary. *)
Lemma EC_REGEX_inv {A} prev s (k : cont (A := A)) m :
  run M.EC_REGEX prev s None k = Some m →
  ∃ a b c d rest,
    digits a ∧ digits b ∧ digits c ∧ last_component d ∧
    s = ec_number a b c d ++ rest ∧
    boundary prev s = true ∧ boundary (last d) rest = true ∧
    k (last d) rest None = Some m.
Proof.
  rewrite EC_REGEX_eq. intros H.
  apply run_bnd_inv in H as [Hb H].
  apply run_plus_inv in H as (a & s1 & E1 & Ha & H).
  apply run_dot_inv in H as (s2 & -> & H).
  apply run_plus_inv in H as (b & s3 & -> & Hb' & H).
  apply run_dot_inv in H as (s4 & -> & H).
  apply run_plus_inv in H as (c & s5 & -> & Hc & H).
  apply run_dot_inv in H as (s6 & -> & H).
  change (run (Cat (Alt ?r1 ?r2) ?R) ?p ?s ?gr ?k')
    with (match run (Cat r1 R) p s gr k' with
          | Some m => Some m
          | None => run (Cat r2 R) p s gr k'
          end) in H.
  assert (∃ d rest, last_component d ∧ s6 = d ++ rest ∧
                    boundary (last d) rest = true ∧
                    k (last d) rest None = Some m)
    as (d & rest & Hd & -> & Hend & Hk).
  { destruct (run (Cat (Plus CDigit) (Cat Bnd Eps)) (Some DOT) s6 None k)
      as [m'|] eqn:E1'.
    - injection H as ->.
      apply run_plus_inv in E1' as (d & rest & -> & Hd & H).
      apply run_bnd_inv in H as [Hend H]. cbn [run] in H.
      rewrite lastc_nonempty in Hend, H by apply Hd.
      exists d, rest. split; [by left|done].
    - cbn [run cset_match] in H. destruct s6 as [|x rest]; [done|].
      destruct (HYPHEN =? x) eqn:Ex; [|done].
      apply N.eqb_eq in Ex as <-.
      destruct (boundary (Some HYPHEN) rest) eqn:Hend; [|done].
      exists [HYPHEN], rest. split; [by right|done]. }
  exists a, b, c, d, rest. subst s. unfold ec_number.
  repeat (rewrite <- app_assoc || rewrite <- app_comm_cons). done.
Qed.

(** A match of the EC pattern with any continuation: the converse. *)
Lemma EC_REGEX_run {A} prev a b c d rest (k : cont (A := A)) m :
  digits a → digits b → digits c → digits d →
  word_before prev = false → word_after rest = false →
  k (last d) rest None = Some m →
  run M.EC_REGEX prev (ec_number a b c d ++ rest) None k = Some m.
Proof.
  intros Ha Hb Hc Hd Hprev Hrest Hk. rewrite EC_REGEX_eq. unfold ec_number.
  repeat (rewrite <- app_assoc || rewrite <- app_comm_cons).
  change (run (Cat Bnd ?R) prev ?s None k)
    with (if boundary prev s then run R prev s None k else None).
  unfold boundary at 1. rewrite Hprev, (word_after_digits a) by done.
  cbn [xorb].
  apply run_plus_digits; [done|by simpl|]. apply run_dot.
  apply run_plus_digits; [done|by simpl|]. apply run_dot.
  apply run_plus_digits; [done|by simpl|]. apply run_dot.
  change (run (Cat (Alt ?r1 ?r2) ?R) ?p ?s ?gr ?k')
    with (match run (Cat r1 R) p s gr k' with
          | Some m => Some m
          | None => run (Cat r2 R) p s gr k'
          end).
  rewrite (run_plus_digits (Cat Bnd Eps) (Some DOT) d rest None k m);
    [done|done|by apply stops_not_word|].
  cbn [run]. unfold boundary.
  rewrite Hrest, word_before_digits by done. cbn [xorb].
  by rewrite lastc_nonempty by apply Hd.
Qed.

Lemma hyphen_not_word : isword HYPHEN = false.
Proof. reflexivity. Qed.

Lemma fullmatch_numeric_iff (ec : pystr) :
  found (re_fullmatch M.EC_REGEX ec) = true ↔ ec_numeric ec.
Proof.
  unfold re_fullmatch. split.
  - destruct (run M.EC_REGEX None ec None accept_all) as [m|] eqn:E; [|done].
    intros _. apply EC_REGEX_inv in E
      as (a & b & c & d & rest & Ha & Hb & Hc & Hd & -> & _ & Hend & Hk).
    unfold accept_all in Hk. destruct rest as [|x rest]; [|done].
    rewrite app_nil_r. exists a, b, c, d. repeat (split; [done|]).
    split; [|done]. destruct Hd as [Hd| ->]; [done|].
    unfold boundary in Hend. cbn [last word_before word_after] in Hend.
    by rewrite hyphen_not_word in Hend.
  - intros (a & b & c & d & Ha & Hb & Hc & Hd & ->).
    rewrite <- (app_nil_r (ec_number a b c d)).
    by rewrite (EC_REGEX_run None a b c d [] accept_all
                  {| m_rest := []; m_group1 := None |}).
Qed.

(** X1. [EC_REGEX.fullmatch] accepts exactly the texts with four numeric
    components: the wildcard form is never accepted. *)
Theorem fullmatch_four_numeric (ec : pystr) :
  found (re_fullmatch M.EC_REGEX ec) = true ↔ ec_numeric ec.
Proof. apply fullmatch_numeric_iff. Qed.

End Shape.

(** ** What EC extraction returns *)
Section Extracted.
Context `{U : Unicode}.

Lemma ec_shaped_cons ec : ec_shaped ec → ∃ x tl, ec = x :: tl.
Proof.
  intros (a & b & c & d & Ha & _ & _ & _ & ->). by apply ec_number_cons.
Qed.

(** The text of a match found by the scan. *)
Lemma matched_EC prev s m :
  run M.EC_REGEX prev s None accept = Some m →
  ∃ ec rest, ec_shaped ec ∧ s = ec ++ rest ∧ matched s m = ec.
Proof.
  intros H. apply EC_REGEX_inv in H
    as (a & b & c & d & rest & Ha & Hb & Hc & Hd & -> & _ & _ & Hk).
  injection Hk as <-. exists (ec_number a b c d), rest.
  split; [by exists a, b, c, d|]. split; [done|].
  unfold matched. cbn [m_rest]. rewrite length_app.
  replace (length (ec_number a b c d) + length rest - length rest)%nat
    with (length (ec_number a b c d)) by lia.
  by rewrite take_app_length.
Qed.

Lemma findall_EC_elem prev s skip txt :
  txt ∈ findall_from M.EC_REGEX prev s skip →
  ec_shaped txt ∧ ∃ pre post, s = pre ++ txt ++ post.
Proof.
  revert prev skip. induction s as [|x s IH]; intros prev skip.
  - destruct skip; cbn [findall_from].
    + rewrite EC_REGEX_no_start by done. by intros ?%elem_of_nil.
    + by intros ?%elem_of_nil.
  - assert (∀ p n, txt ∈ findall_from M.EC_REGEX p s n →
                   ec_shaped txt ∧ ∃ pre post, x :: s = pre ++ txt ++ post)
      as Htail.
    { intros p n Hin. destruct (IH _ _ Hin) as (Hs & pre & post & ->).
      split; [done|]. by exists (x :: pre), post. }
    destruct skip; cbn [findall_from]; [|by apply Htail].
    destruct (run M.EC_REGEX prev (x :: s) None accept) as [m|] eqn:E;
      [|by apply Htail].
    apply matched_EC in E as (ec & rest & Hec & Es & ->).
    destruct (ec_shaped_cons ec Hec) as (y & tl & ->).
    intros [->|Hin]%elem_of_cons; [|by apply (Htail _ _ Hin)].
    split; [done|]. exists [], rest. by rewrite Es.
Qed.

Lemma extract_ec_list_elem s txt :
  txt ∈ M.extract_ec_list (PStr s) ↔ txt ∈ re_findall M.EC_REGEX s.
Proof.
  unfold M.extract_ec_list.
  by rewrite merge_sort_Permutation, elem_of_elements, elem_of_list_to_set.
Qed.

(** X2. Every extracted EC is a piece of the input text of the shape
    a.b.c.d, with a, b, c numeric and d numeric or the wildcard "-". *)
Theorem extract_ec_list_shape (s txt : pystr) :
  txt ∈ M.extract_ec_list (PStr s) →
  ec_shaped txt ∧ ∃ pre post, s = pre ++ txt ++ post.
Proof. rewrite extract_ec_list_elem. apply findall_EC_elem. Qed.

#[local] Instance str_le_total : Total str_le.
Proof.
  intros a. induction a as [|x a IH]; intros b; [by left|].
  destruct b as [|y b]; [by right|].
  unfold str_le. cbn [str_leb].
  destruct (N.lt_trichotomy x y) as [H|[->|H]].
  - left. rewrite (proj2 (N.ltb_lt x y)); done.
  - rewrite N.ltb_irrefl, N.eqb_refl. cbn [orb andb]. apply IH.
  - right. rewrite (proj2 (N.ltb_lt y x)); done.
Qed.

(** X3. The list returned by [extract_ec_list] is sorted in code-point
    order and holds no EC twice, whatever the argument is. *)
Theorem extract_ec_list_sorted_unique (s : pyobj) :
  Sorted str_le (M.extract_ec_list s) ∧ NoDup (M.extract_ec_list s).
Proof.
  destruct s as [s|]; cbn [M.extract_ec_list].
  - split; [apply Sorted_merge_sort, _|].
    rewrite merge_sort_Permutation. apply NoDup_elements.
  - split; constructor.
Qed.

End Extracted.

(** ** What the reference parsers record *)
Section Recorded.
Context `{U : Unicode}.

Implicit Types (raw ec g : pystr) (lines : list pystr)
               (d : gmap pystr pystr).

Lemma setdefault_inv d k v ec g :
  setdefault k v d !! ec = Some g → (ec = k ∧ g = v) ∨ d !! ec = Some g.
Proof.
  unfold setdefault. destruct (d !! k) eqn:E; [by right|].
  destruct (decide (k = ec)) as [->|Hne].
  - rewrite lookup_insert_eq. intros [= ->]. by left.
  - rewrite lookup_insert_ne by done. by right.
Qed.

(** A property of all keys and a property of all groups of a dictionary. *)
Definition entries (K G : pystr → Prop) d : Prop :=
  ∀ ec g, d !! ec = Some g → K ec ∧ G g.

Lemma entries_empty K G : entries K G ∅.
Proof. intros ec g H. by rewrite lookup_empty in H. Qed.

Lemma entries_setdefault K G d k v :
  entries K G d → K k → G v → entries K G (setdefault k v d).
Proof.
  intros Hd Hk Hv ec g [[-> ->]|H]%setdefault_inv; [done|by apply Hd].
Qed.

Lemma fullmatch_numeric ec :
  found (re_fullmatch A.EC_REGEX ec) = true → ec_numeric ec.
Proof. apply fullmatch_numeric_iff. Qed.

(** The characters of a group name in a header line. *)
Definition name_char (c : N) : bool :=
  between 65 90 c || between 97 122 c || between 48 57 c || (c =? 95).

Definition name_char_hyphen (c : N) : bool := name_char c || (c =? HYPHEN).

Definition group_name (ok : N → bool) g : Prop :=
  g ≠ [] ∧ Forall (fun c => ok c = true) g.

(** A success of a group around [c+] followed by [R]. *)
Lemma run_group_plus_split {A} c R prev s gr (k : cont (A := A)) a :
  run (Cat (Grp (Plus c)) R) prev s gr k = Some a →
  ∃ ds s', s = ds ++ s' ∧ ds ≠ [] ∧
           Forall (fun x => cset_match c x = true) ds ∧
           run R (lastc prev ds) s' (Some ds) k = Some a.
Proof.
  cbn [run]. destruct s as [|x s]; [done|].
  destruct (cset_match c x) eqn:Ex; [|done].
  intros H. apply run_star_split in H as (ds & s' & -> & Hds & Hk).
  exists (x :: ds), s'. split; [done|]. split; [done|].
  split; [by constructor|].
  replace (length (x :: ds ++ s') - length s')%nat with (length (x :: ds))
    in Hk by (cbn [length]; rewrite length_app; lia).
  change (x :: ds ++ s') with ((x :: ds) ++ s') in Hk.
  by rewrite take_app_length in Hk.
Qed.

Lemma run_marker_inv {A} R prev s gr (k : cont (A := A)) a :
  run (Cat (lit "#") R) prev s gr k = Some a →
  ∃ s', s = 35 :: s' ∧ run R (Some 35) s' gr k = Some a.
Proof.
  change (lit "#") with (Cat (Chr (CLit 35)) Eps).
  cbn [run cset_match]. destruct s as [|x s]; [done|].
  destruct (35 =? x) eqn:Ex; [|done].
  apply N.eqb_eq in Ex as <-. intros H. by exists s.
Qed.

Lemma run_spaces_inv {A} R prev s gr (k : cont (A := A)) a :
  run (Cat (Star CSpace) R) prev s gr k = Some a →
  ∃ sp s', s = sp ++ s' ∧ Forall (fun x => isspace x = true) sp ∧
           run R (lastc prev sp) s' gr k = Some a.
Proof. cbn [run]. intros H. by apply run_star_split in H. Qed.

(** The group name of a header line of [parse_mt_grouped]: the run of
    letters, digits and underscores after the marker and white space. *)
Lemma A_header_group line m g :
  re_match A.HEADER line = Some m → m_group1 m = Some g →
  group_name name_char g ∧
  ∃ sp rest, line = 35 :: sp ++ g ++ rest ∧
             Forall (fun x => isspace x = true) sp.
Proof.
  unfold re_match, A.HEADER, seq. cbn [foldr]. intros H Hg.
  apply run_marker_inv in H as (s1 & -> & H).
  apply run_spaces_inv in H as (sp & s2 & -> & Hsp & H).
  apply run_group_plus_split in H as (ds & rest & -> & Hne & Hds & H).
  apply run_bnd_inv in H as [_ H]. cbn [run] in H. injection H as <-.
  cbn [m_group1] in Hg. injection Hg as <-.
  split; [|by exists sp, rest]. split; [done|].
  eapply Forall_impl; [exact Hds|]. intros c. cbn [cset_match].
  unfold name_char. rewrite (N.eqb_sym 95 c). by rewrite !orb_assoc.
Qed.

(** The same for [parse_grouped_sectioned], where a hyphen belongs to the
    name too. *)
Lemma B_header_group_name line m g :
  re_match B.HEADER line = Some m → m_group1 m = Some g →
  group_name name_char_hyphen g ∧
  ∃ sp rest, line = 35 :: sp ++ g ++ rest ∧
             Forall (fun x => isspace x = true) sp.
Proof.
  unfold re_match, B.HEADER, seq. cbn [foldr]. intros H Hg.
  apply run_marker_inv in H as (s1 & -> & H).
  apply run_spaces_inv in H as (sp & s2 & -> & Hsp & H).
  apply run_group_plus_split in H as (ds & rest & -> & Hne & Hds & H).
  cbn [run] in H. injection H as <-.
  cbn [m_group1] in Hg. injection Hg as <-.
  split; [|by exists sp, rest]. split; [done|].
  eapply Forall_impl; [exact Hds|]. intros c. cbn [cset_match].
  unfold name_char_hyphen, name_char, HYPHEN.
  rewrite (N.eqb_sym 95 c), (N.eqb_sym 45 c). by rewrite !orb_assoc.
Qed.

(** The loop invariant: keys are numeric ECs, groups and the current group
    are header names. *)
Definition A_inv (st : A.pstate) : Prop :=
  entries ec_numeric (group_name name_char) (A.ec_to_group st) ∧
  ∀ g, A.current_group st = Some g → group_name name_char g.

Definition B_inv (st : B.pstate) : Prop :=
  entries ec_numeric (group_name name_char_hyphen) (B.ec_to_group st) ∧
  ∀ g, B.current_group st = Some g → group_name name_char_hyphen g.

Lemma A_parse_line_inv st raw : A_inv st → A_inv (A.parse_line st raw).
Proof.
  intros Hinv. pose proof Hinv as [Hd Hg]. unfold A.parse_line.
  destruct (strip raw) as [|c line]; [done|].
  destruct (startswith _ _).
  { split; [done|]. fields. intros g.
    destruct (re_match _ _) as [m|] eqn:E; [|done].
    intros Hm. by apply (A_header_group _ _ _ E Hm). }
  destruct (startswith _ _); [done|].
  destruct (A.current_group st) as [g|] eqn:Eg; [|done].
  destruct (found _) eqn:Ef; [|done].
  split; fields; [|intros g0 [= <-]; by apply Hg].
  apply entries_setdefault; [done|by apply fullmatch_numeric|by apply Hg].
Qed.

Lemma A_parse_lines_inv lines st : A_inv st → A_inv (A.parse_lines st lines).
Proof.
  revert st. induction lines as [|raw lines IH]; intros st H; [done|].
  apply IH. by apply A_parse_line_inv.
Qed.

Lemma B_parse_line_inv st raw : B_inv st → B_inv (B.parse_line st raw).
Proof.
  intros Hinv. pose proof Hinv as [Hd Hg]. unfold B.parse_line.
  destruct (strip raw) as [|c line]; [done|].
  destruct (startswith _ _).
  { split; [done|]. fields. intros g.
    destruct (re_match _ _) as [m|] eqn:E; [|done].
    intros Hm. by apply (B_header_group_name _ _ _ E Hm). }
  destruct (startswith _ _); [done|].
  destruct (B.current_group st) as [[|c' g']|] eqn:Eg; [done| |done].
  change B.EC_REGEX with A.EC_REGEX.
  destruct (found _) eqn:Ef; [|done].
  split; fields; [|intros g0 [= <-]; by apply Hg].
  apply entries_setdefault; [done|by apply fullmatch_numeric|by apply Hg].
Qed.

Lemma B_parse_lines_inv lines st : B_inv st → B_inv (B.parse_lines st lines).
Proof.
  revert st. induction lines as [|raw lines IH]; intros st H; [done|].
  apply IH. by apply B_parse_line_inv.
Qed.

Lemma parse_text_entries (text : pystr) :
  entries ec_numeric (group_name name_char) (A.parse_text text) ∧
  entries ec_numeric (group_name name_char_hyphen) (B.parse_text text).
Proof.
  split.
  - apply (A_parse_lines_inv (splitlines text) A_init).
    split; [apply entries_empty|done].
  - apply (B_parse_lines_inv (splitlines text) B_init).
    split; [apply entries_empty|done].
Qed.

(** X4. Every entry of a dictionary read from a sectioned reference has a
    key with four numeric components and a group that is a non-empty run of
    letters, digits and underscores (and hyphens, in split_mt2_by_group.py),
    whatever the text is. *)
Theorem sectioned_dictionary_entries (text : pystr) :
  entries ec_numeric (group_name name_char) (A.parse_text text) ∧
  entries ec_numeric (group_name name_char_hyphen) (B.parse_text text).
Proof. apply parse_text_entries. Qed.

End Recorded.

(** ** Lines before the first header, and wildcard ECs *)
Section Unrecorded.
Context `{U : Unicode}.

Implicit Types (raw ec g : pystr) (lines : list pystr)
               (d : gmap pystr pystr).

(** The line is not a header line. *)
Definition no_header raw : Prop := startswith (py "#") (strip raw) = false.

Lemma A_parse_line_no_group st raw :
  A.current_group st = None → no_header raw → A.parse_line st raw = st.
Proof.
  unfold no_header, A.parse_line. intros Hg Hh.
  destruct (strip raw) as [|c line]; [done|]. rewrite Hh.
  destruct (startswith _ (lower _)); [done|]. by rewrite Hg.
Qed.

Lemma B_parse_line_no_group st raw :
  B.current_group st = None → no_header raw → B.parse_line st raw = st.
Proof.
  unfold no_header, B.parse_line. intros Hg Hh.
  destruct (strip raw) as [|c line]; [done|]. rewrite Hh.
  destruct (startswith _ (lower _)); [done|]. by rewrite Hg.
Qed.

Lemma A_parse_lines_no_header l0 :
  (∀ r, r ∈ l0 → no_header r) → A.parse_lines A_init l0 = A_init.
Proof.
  induction l0 as [|r l0 IH]; intros Hl0; [done|].
  unfold A.parse_lines. cbn [foldl].
  rewrite A_parse_line_no_group; [|done|apply Hl0; left].
  apply IH. intros r' Hr'. apply Hl0. by right.
Qed.

Lemma B_parse_lines_no_header l0 :
  (∀ r, r ∈ l0 → no_header r) → B.parse_lines B_init l0 = B_init.
Proof.
  induction l0 as [|r l0 IH]; intros Hl0; [done|].
  unfold B.parse_lines. cbn [foldl].
  rewrite B_parse_line_no_group; [|done|apply Hl0; left].
  apply IH. intros r' Hr'. apply Hl0. by right.
Qed.

(** X5. Whatever stands before the first header line is ignored by both
    parsers; a reference without header line gives the empty dictionary. *)
Theorem lines_before_first_header (l0 l : list pystr) :
  (∀ r, r ∈ l0 → no_header r) →
  A.parse_lines A_init (l0 ++ l) = A.parse_lines A_init l ∧
  B.parse_lines B_init (l0 ++ l) = B.parse_lines B_init l ∧
  A.ec_to_group (A.parse_lines A_init l0) = ∅ ∧
  B.ec_to_group (B.parse_lines B_init l0) = ∅.
Proof.
  intros Hl0.
  pose proof (A_parse_lines_no_header l0 Hl0) as HA.
  pose proof (B_parse_lines_no_header l0 Hl0) as HB.
  unfold A.parse_lines, B.parse_lines in *. rewrite !foldl_app.
  by rewrite HA, HB.
Qed.

Lemma last_app_nonempty {X} (l1 l2 : list X) :
  l2 ≠ [] → last (l1 ++ l2) = last l2.
Proof.
  intros Hne. rewrite last_app. destruct (last l2) eqn:E; [done|].
  by apply last_None in E.
Qed.

Lemma ec_numeric_last ec : ec_numeric ec → last ec ≠ Some HYPHEN.
Proof.
  intros (a & b & c & d & _ & _ & _ & [Hne Hd] & ->). unfold ec_number.
  rewrite last_app_nonempty by done.
  change (DOT :: b ++ DOT :: c ++ DOT :: d)
    with ((DOT :: b) ++ (DOT :: c) ++ [DOT] ++ d).
  rewrite !last_app_nonempty by (done || by destruct d).
  intros Hlast. apply last_Some in Hlast as (d' & ->).
  apply Forall_app in Hd as [_ Hd]. by inversion Hd.
Qed.

(** X6. A dictionary read from a sectioned reference never maps a wildcard
    EC: a row whose ECs all end in "-" is labelled UNKNOWN, whatever the
    reference text is. *)
Theorem wildcard_rows_unknown (text : pystr) (ecs : list pystr) :
  ecs ≠ [] → (∀ ec, ec ∈ ecs → last ec = Some HYPHEN) →
  A.choose_group_for_ecs ecs (A.parse_text text) = py "UNKNOWN" ∧
  B.decide_row_group ecs (B.parse_text text) = py "UNKNOWN".
Proof.
  intros Hne Hwild.
  destruct (parse_text_entries text) as [HA HB].
  split; [|rewrite decide_row_group_choose]; apply verdict_unknown; try done.
  - intros ec Hin. destruct (A.parse_text text !! ec) as [g|] eqn:E; [|done].
    destruct (HA ec g E) as [Hk _]. apply ec_numeric_last in Hk.
    by rewrite (Hwild ec Hin) in Hk.
  - intros ec Hin. destruct (B.parse_text text !! ec) as [g|] eqn:E; [|done].
    destruct (HB ec g E) as [Hk _]. apply ec_numeric_last in Hk.
    by rewrite (Hwild ec Hin) in Hk.
Qed.

End Unrecorded.

(** ** First assignment wins *)
Section FirstWins.
Context `{U : Unicode}.

Implicit Types (raw ec g sp rest : pystr) (lines : list pystr).

(** The text does not go on with a character [ok] accepts. *)
Definition name_ends (ok : N → bool) rest : Prop :=
  match rest with
  | x :: _ => ok x = false
  | [] => True
  end.

(** A header line of [parse_mt_grouped] that names the group [g]: the
    marker, white space, the name, and after the name the end of the line or
    a character that is not a word character. *)
Definition A_header_of g raw : Prop :=
  ∃ sp rest, strip raw = 35 :: sp ++ g ++ rest ∧
             Forall (fun x => isspace x = true) sp ∧
             group_name name_char g ∧ word_after rest = false.

(** A header line of [parse_grouped_sectioned] that names the group [g]:
    the name, which may hold hyphens, goes as far as its characters go. *)
Definition B_header_of g raw : Prop :=
  ∃ sp rest, strip raw = 35 :: sp ++ g ++ rest ∧
             Forall (fun x => isspace x = true) sp ∧
             group_name name_char_hyphen g ∧ name_ends name_char_hyphen rest.

Lemma name_char_hyphen_ascii c : name_char_hyphen c = true → 45 ≤ c < 128.
Proof.
  unfold name_char_hyphen, name_char, between, HYPHEN.
  rewrite !orb_true_iff, !andb_true_iff, !N.leb_le, !N.eqb_eq. lia.
Qed.

Lemma name_char_hyphen_not_space c :
  name_char_hyphen c = true → isspace c = false.
Proof.
  intros H%name_char_hyphen_ascii. unfold isspace, between.
  rewrite (proj2 (N.ltb_lt c 128)) by lia.
  rewrite orb_false_iff, !andb_false_iff, !N.leb_gt. lia.
Qed.

Lemma name_char_with_hyphen c : name_char c = true → name_char_hyphen c = true.
Proof. intros H. unfold name_char_hyphen. by rewrite H. Qed.

Lemma name_char_isword c : name_char c = true → isword c = true.
Proof.
  intros H. pose proof (name_char_hyphen_ascii c (name_char_with_hyphen c H)).
  unfold isword, isalnum, isdecimal. rewrite (proj2 (N.ltb_lt c 128)) by lia.
  unfold name_char in H.
  by destruct (between 65 90 c), (between 97 122 c), (between 48 57 c),
              (c =? 95).
Qed.

(** Greedy [c*] takes the whole run of characters of [c] when the rest of
    the pattern accepts what follows. *)
Lemma run_star_all {A} c prev ds rest gr (k : cont (A := A)) a :
  Forall (fun x => cset_match c x = true) ds →
  name_ends (cset_match c) rest →
  k (lastc prev ds) rest gr = Some a →
  run_star c prev (ds ++ rest) gr k = Some a.
Proof.
  intros Hall Hrest. revert prev.
  induction Hall as [|x ds Hx Hall IH]; intros prev Hk.
  - destruct rest as [|y rest]; [done|]. cbn in *. by rewrite Hrest.
  - cbn. rewrite Hx. by rewrite (IH (Some x)).
Qed.

Lemma word_before_name prev g :
  group_name name_char g → word_before (lastc prev g) = true.
Proof.
  intros [Hne Hall]. revert prev. induction Hall as [|x l Hx Hall IH]; [done|].
  intros prev. change (lastc prev (x :: l)) with (lastc (Some x) l).
  destruct l as [|y l]; [by apply name_char_isword|]. by apply IH.
Qed.

Lemma A_name_match c :
  cset_match (CUnion (CRange 65 90) (CUnion (CRange 97 122)
                (CUnion (CRange 48 57) (CLit 95)))) c = name_char c.
Proof.
  cbn [cset_match]. unfold name_char.
  rewrite (N.eqb_sym 95 c). by rewrite !orb_assoc.
Qed.

Lemma B_name_match c :
  cset_match (CUnion (CRange 65 90) (CUnion (CRange 97 122)
                (CUnion (CRange 48 57) (CUnion (CLit 95) (CLit 45))))) c
  = name_char_hyphen c.
Proof.
  cbn [cset_match]. unfold name_char_hyphen, name_char, HYPHEN.
  rewrite (N.eqb_sym 95 c), (N.eqb_sym 45 c). by rewrite !orb_assoc.
Qed.

Lemma run_marker {A} R prev s gr (k : cont (A := A)) a :
  run R (Some 35) s gr k = Some a →
  run (Cat (lit "#") R) prev (35 :: s) gr k = Some a.
Proof. intros H. exact H. Qed.

Lemma run_spaces {A} R prev sp rest gr (k : cont (A := A)) a :
  Forall (fun x => isspace x = true) sp → name_ends isspace rest →
  run R (lastc prev sp) rest gr k = Some a →
  run (Cat (Star CSpace) R) prev (sp ++ rest) gr k = Some a.
Proof. intros Hsp Hrest H. cbn [run]. by apply run_star_all. Qed.

(** A group around [c+] captures the whole run of characters of [c]. *)
Lemma run_group_all {A} c R prev ds rest gr (k : cont (A := A)) a :
  ds ≠ [] → Forall (fun x => cset_match c x = true) ds →
  name_ends (cset_match c) rest →
  run R (lastc prev ds) rest (Some ds) k = Some a →
  run (Cat (Grp (Plus c)) R) prev (ds ++ rest) gr k = Some a.
Proof.
  intros Hne Hall Hrest H. destruct Hall as [|x ds Hx Hall]; [done|].
  cbn [run app]. rewrite Hx. apply run_star_all; [done..|].
  replace (length (x :: ds ++ rest) - length rest)%nat
    with (length (x :: ds)) by (cbn [length]; rewrite length_app; lia).
  change (x :: ds ++ rest) with ((x :: ds) ++ rest).
  by rewrite take_app_length.
Qed.

(** The header pattern of [parse_mt_grouped] on a header line. *)
Lemma A_header_match sp g rest :
  Forall (fun x => isspace x = true) sp → group_name name_char g →
  word_after rest = false →
  re_match A.HEADER (35 :: sp ++ g ++ rest)
  = Some {| m_rest := rest; m_group1 := Some g |}.
Proof.
  intros Hsp Hg Hrest. pose proof Hg as [Hne Hall].
  unfold re_match, A.HEADER, seq. cbn [foldr].
  apply run_marker, run_spaces; [done| |].
  { destruct g as [|x g]; [done|]. apply Forall_cons in Hall as [Hx _].
    cbn. apply name_char_hyphen_not_space. by apply name_char_with_hyphen. }
  apply run_group_all; [done| | |].
  - eapply Forall_impl; [exact Hall|]. intros c Hc. by rewrite A_name_match.
  - destruct rest as [|y rest]; [done|].
    unfold name_ends. rewrite A_name_match. cbn in Hrest.
    destruct (name_char y) eqn:E; [|done].
    apply name_char_isword in E. congruence.
  - cbn [run]. unfold boundary.
    by rewrite word_before_name, Hrest.
Qed.

(** The header pattern of [parse_grouped_sectioned] on a header line. *)
Lemma B_header_match sp g rest :
  Forall (fun x => isspace x = true) sp → group_name name_char_hyphen g →
  name_ends name_char_hyphen rest →
  re_match B.HEADER (35 :: sp ++ g ++ rest)
  = Some {| m_rest := rest; m_group1 := Some g |}.
Proof.
  intros Hsp [Hne Hall] Hrest.
  unfold re_match, B.HEADER, seq. cbn [foldr].
  apply run_marker, run_spaces; [done| |].
  { destruct g as [|x g]; [done|]. apply Forall_cons in Hall as [Hx _].
    cbn. by apply name_char_hyphen_not_space. }
  apply run_group_all; [done| | |].
  - eapply Forall_impl; [exact Hall|]. intros c Hc. by rewrite B_name_match.
  - destruct rest as [|y rest]; [done|].
    unfold name_ends. by rewrite B_name_match.
  - reflexivity.
Qed.

(** A header line sets the current group to the name it holds and leaves
    the dictionary as it is. *)
Lemma A_parse_line_header st raw g :
  A_header_of g raw →
  A.parse_line st raw = {| A.ec_to_group := A.ec_to_group st;
                           A.current_group := Some g |}.
Proof.
  intros (sp & rest & E & Hsp & Hg & Hrest). unfold A.parse_line. rewrite E.
  change (startswith (py "#") (35 :: sp ++ g ++ rest)) with true.
  cbn match. by rewrite A_header_match.
Qed.

Lemma B_parse_line_header st raw g :
  B_header_of g raw →
  B.parse_line st raw = {| B.ec_to_group := B.ec_to_group st;
                           B.current_group := Some g |}.
Proof.
  intros (sp & rest & E & Hsp & Hg & Hrest). unfold B.parse_line. rewrite E.
  change (startswith (py "#") (35 :: sp ++ g ++ rest)) with true.
  cbn match. by rewrite B_header_match.
Qed.

(** Only a header line changes the current group. *)
Lemma A_parse_line_same_group st raw :
  no_header raw → A.current_group (A.parse_line st raw) = A.current_group st.
Proof.
  unfold no_header, A.parse_line. intros Hh.
  destruct (strip raw) as [|c line]; [done|]. rewrite Hh.
  destruct (startswith _ (lower _)); [done|].
  destruct (A.current_group st) eqn:Eg; [|done]. by destruct (found _).
Qed.

Lemma B_parse_line_same_group st raw :
  no_header raw → B.current_group (B.parse_line st raw) = B.current_group st.
Proof.
  unfold no_header, B.parse_line. intros Hh.
  destruct (strip raw) as [|c line]; [done|]. rewrite Hh.
  destruct (startswith _ (lower _)); [done|].
  destruct (B.current_group st) as [[|c' g']|] eqn:Eg; [done| |done].
  by destruct (found _).
Qed.

Lemma A_parse_lines_same_group lines st :
  (∀ r, r ∈ lines → no_header r) →
  A.current_group (A.parse_lines st lines) = A.current_group st.
Proof.
  revert st. induction lines as [|raw lines IH]; intros st Hl; [done|].
  unfold A.parse_lines. cbn [foldl]. fold (A.parse_lines (A.parse_line st raw) lines).
  rewrite IH by (intros r Hr; apply Hl; by right).
  apply A_parse_line_same_group, Hl. left.
Qed.

Lemma B_parse_lines_same_group lines st :
  (∀ r, r ∈ lines → no_header r) →
  B.current_group (B.parse_lines st lines) = B.current_group st.
Proof.
  revert st. induction lines as [|raw lines IH]; intros st Hl; [done|].
  unfold B.parse_lines. cbn [foldl]. fold (B.parse_lines (B.parse_line st raw) lines).
  rewrite IH by (intros r Hr; apply Hl; by right).
  apply B_parse_line_same_group, Hl. left.
Qed.

(** The first data row with the EC [ec], under the header line of the group
    [g], fixes the entry of [ec]. *)
Lemma A_first_under_header l1 hdr l2 raw l3 ec g :
  A_header_of g hdr →
  (∀ r, r ∈ l2 → no_header r) →
  (∀ r, r ∈ l1 ++ l2 → data_ec r ≠ Some ec) →
  data_ec raw = Some ec →
  A.ec_to_group (A.parse_lines A_init (l1 ++ hdr :: l2 ++ raw :: l3)) !! ec
  = Some g.
Proof.
  intros Hhdr Hl2 Hbefore Hraw.
  change (l1 ++ hdr :: l2 ++ raw :: l3) with (l1 ++ (hdr :: l2) ++ raw :: l3).
  rewrite (assoc_L (++)). apply A_first_wins; [|done|].
  - intros r [Hr|[->|Hr]%elem_of_cons]%elem_of_app.
    + apply Hbefore, elem_of_app. by left.
    + destruct Hhdr as (sp & rest & E & _). unfold data_ec. rewrite E.
      by change (startswith (py "#") (35 :: sp ++ g ++ rest)) with true.
    + apply Hbefore, elem_of_app. by right.
  - unfold A.parse_lines at 1. rewrite foldl_app. cbn [foldl].
    fold (A.parse_lines A_init l1).
    fold (A.parse_lines (A.parse_line (A.parse_lines A_init l1) hdr) l2).
    rewrite A_parse_lines_same_group by done.
    by rewrite (A_parse_line_header _ hdr g).
Qed.

Lemma B_first_under_header l1 hdr l2 raw l3 ec g :
  B_header_of g hdr →
  (∀ r, r ∈ l2 → no_header r) →
  (∀ r, r ∈ l1 ++ l2 → data_ec r ≠ Some ec) →
  data_ec raw = Some ec →
  B.ec_to_group (B.parse_lines B_init (l1 ++ hdr :: l2 ++ raw :: l3)) !! ec
  = Some g.
Proof.
  intros Hhdr Hl2 Hbefore Hraw.
  change (l1 ++ hdr :: l2 ++ raw :: l3) with (l1 ++ (hdr :: l2) ++ raw :: l3).
  rewrite (assoc_L (++)). apply B_first_wins; [|done|].
  - intros r [Hr|[->|Hr]%elem_of_cons]%elem_of_app.
    + apply Hbefore, elem_of_app. by left.
    + destruct Hhdr as (sp & rest & E & _). unfold data_ec. rewrite E.
      by change (startswith (py "#") (35 :: sp ++ g ++ rest)) with true.
    + apply Hbefore, elem_of_app. by right.
  - unfold B.parse_lines at 1. rewrite foldl_app. cbn [foldl].
    fold (B.parse_lines B_init l1).
    fold (B.parse_lines (B.parse_line (B.parse_lines B_init l1) hdr) l2).
    rewrite B_parse_lines_same_group by done.
    by rewrite (B_parse_line_header _ hdr g).
Qed.

(** C6. First assignment wins, in both parsers.  Take a header line that
    names the group [g], after it lines that are no header lines, and then a
    data row with the EC [ec], where no line before that row is a data row
    with [ec]: the finished dictionary maps [ec] to [g], whatever follows in
    the text, be it the same EC under other headers.  And an entry, once
    made, is never replaced. *)
Theorem reference_parser_first_wins :
  (∀ text l1 hdr l2 raw l3 ec g,
     splitlines text = l1 ++ hdr :: l2 ++ raw :: l3 →
     A_header_of g hdr →
     (∀ r, r ∈ l2 → no_header r) →
     (∀ r, r ∈ l1 ++ l2 → data_ec r ≠ Some ec) →
     data_ec raw = Some ec →
     A.parse_text text !! ec = Some g) ∧
  (∀ text l1 hdr l2 raw l3 ec g,
     splitlines text = l1 ++ hdr :: l2 ++ raw :: l3 →
     B_header_of g hdr →
     (∀ r, r ∈ l2 → no_header r) →
     (∀ r, r ∈ l1 ++ l2 → data_ec r ≠ Some ec) →
     data_ec raw = Some ec →
     B.parse_text text !! ec = Some g) ∧
  (∀ st lines ec g,
     A.ec_to_group st !! ec = Some g →
     A.ec_to_group (A.parse_lines st lines) !! ec = Some g) ∧
  (∀ st lines ec g,
     B.ec_to_group st !! ec = Some g →
     B.ec_to_group (B.parse_lines st lines) !! ec = Some g).
Proof.
  split; [|split; [|split]].
  - intros text l1 hdr l2 raw l3 ec g Hlines Hhdr Hl2 Hbefore Hraw.
    unfold A.parse_text. rewrite Hlines. by apply A_first_under_header.
  - intros text l1 hdr l2 raw l3 ec g Hlines Hhdr Hl2 Hbefore Hraw.
    unfold B.parse_text. rewrite Hlines. by apply B_first_under_header.
  - apply A_parse_lines_keeps.
  - apply B_parse_lines_keeps.
Qed.

End FirstWins.

(** ** The table format of the reference *)
Section Table.
Context `{U : Unicode} `{F : Files}.

Implicit Types (ec g : pystr) (d : gmap pystr pystr)
               (row : gmap pystr pystr) (rws : list (gmap pystr pystr)).

Definition nonempty g : Prop := g ≠ [].

(** The loop of [parse_grouped_table] over the rows. *)
Definition table_loop (ec_col group_col : pystr) d rws : gmap pystr pystr :=
  foldl (B.table_row ec_col group_col) d rws.

Lemma table_row_entries (ec_col group_col : pystr) d row :
  entries ec_numeric nonempty d →
  entries ec_numeric nonempty (B.table_row ec_col group_col d row).
Proof.
  intros Hd. unfold B.table_row.
  destruct (found _) eqn:Ef; [|done]. case_bool_decide; [done|].
  cbn [negb andb].
  apply entries_setdefault; [done| |done].
  by apply fullmatch_numeric.
Qed.

Lemma table_loop_entries (ec_col group_col : pystr) rws d :
  entries ec_numeric nonempty d →
  entries ec_numeric nonempty (table_loop ec_col group_col d rws).
Proof.
  revert d. induction rws as [|row rws IH]; intros d Hd; [done|].
  apply IH. by apply table_row_entries.
Qed.

Lemma table_row_keeps (ec_col group_col : pystr) d row ec g :
  d !! ec = Some g → B.table_row ec_col group_col d row !! ec = Some g.
Proof.
  intros H. unfold B.table_row. destruct (_ && _); [|done].
  by apply setdefault_keeps.
Qed.

Lemma table_loop_keeps (ec_col group_col : pystr) rws d ec g :
  d !! ec = Some g → table_loop ec_col group_col d rws !! ec = Some g.
Proof.
  revert d. induction rws as [|row rws IH]; intros d H; [done|].
  apply IH. by apply table_row_keeps.
Qed.

Lemma table_row_skips (ec_col group_col : pystr) d row ec :
  B.cell row ec_col ≠ ec → d !! ec = None →
  B.table_row ec_col group_col d row !! ec = None.
Proof.
  intros Hne H. unfold B.table_row. destruct (_ && _); [|done].
  by rewrite setdefault_other.
Qed.

Lemma table_loop_skips (ec_col group_col : pystr) rws d ec :
  (∀ r, r ∈ rws → B.cell r ec_col ≠ ec) → d !! ec = None →
  table_loop ec_col group_col d rws !! ec = None.
Proof.
  revert d. induction rws as [|row rws IH]; intros d Hl H; [done|].
  apply IH.
  - intros r Hr. apply Hl. by right.
  - apply table_row_skips; [apply Hl; left|done].
Qed.

(** A column list picked by one of the two filters holds columns only. *)
Lemma picked_column (P Q : pystr → Prop) `{∀ x, Decision (P x)}
    `{∀ x, Decision (Q x)} (cols : list pystr) c rest :
  match filter P cols with
  | [] => filter Q cols
  | _ => filter P cols
  end = c :: rest →
  c ∈ cols.
Proof.
  destruct (filter P cols) as [|c' l] eqn:E; intros Hc.
  - assert (c ∈ filter Q cols) as Hin by (rewrite Hc; left).
    by apply list_elem_of_filter in Hin as [_ ?].
  - assert (c ∈ filter P cols) as Hin by (rewrite E, Hc; left).
    by apply list_elem_of_filter in Hin as [_ ?].
Qed.

Lemma parse_grouped_table_loop path d :
  B.parse_grouped_table path = Ok d →
  ∃ df ec_col group_col,
    read_csv path = Ok df ∧ ec_col ∈ columns df ∧ group_col ∈ columns df ∧
    d = table_loop ec_col group_col ∅ (rows df).
Proof.
  unfold B.parse_grouped_table.
  destruct (read_csv path) as [df|e]; [|done]. cbn [mbind result_bind].
  match goal with
  | |- match ?l with
       | [] => Raise (RuntimeError (NoEcColumn _ _))
       | _ :: _ => _
       end = _ → _ =>
      destruct l as [|ec_col l1] eqn:E1; [done|]
  end.
  match goal with
  | |- match ?l with
       | [] => Raise (RuntimeError (NoGroupColumn _ _))
       | _ :: _ => _
       end = _ → _ =>
      destruct l as [|group_col l2] eqn:E2; [done|]
  end.
  intros [= <-]. exists df, ec_col, group_col.
  split; [done|]. split; [by apply picked_column in E1|].
  split; [by apply picked_column in E2|done].
Qed.

(** X7. In the table format, too, the first row with an EC decides. The
    dictionary is the result of the row loop for two columns of the table;
    in that loop a row with a numeric EC and a non-empty group cell, before
    which no row has that EC, fixes the entry whatever follows. *)
Theorem table_first_wins :
  (∀ path d,
     B.parse_grouped_table path = Ok d →
     ∃ df ec_col group_col,
       read_csv path = Ok df ∧ ec_col ∈ columns df ∧
       group_col ∈ columns df ∧
       d = table_loop ec_col group_col ∅ (rows df)) ∧
  (∀ (ec_col group_col : pystr) (l1 l2 : list (gmap pystr pystr)) row ec g,
     (∀ r, r ∈ l1 → B.cell r ec_col ≠ ec) →
     B.cell row ec_col = ec → ec_numeric ec →
     B.cell row group_col = g → g ≠ [] →
     table_loop ec_col group_col ∅ (l1 ++ row :: l2) !! ec = Some g).
Proof.
  split; [apply parse_grouped_table_loop|].
  intros ec_col group_col l1 l2 row ec g Hl1 Hec Hnum Hg Hne.
  unfold table_loop. rewrite foldl_app.
  cbn [foldl]. apply table_loop_keeps.
  unfold B.table_row. rewrite Hec, Hg.
  change B.EC_REGEX with M.EC_REGEX.
  rewrite (proj2 (fullmatch_numeric_iff ec)) by done.
  rewrite bool_decide_eq_false_2 by done. cbn [negb andb].
  apply setdefault_fresh. apply table_loop_skips; [done|].
  apply lookup_empty.
Qed.

Lemma cell_nan row col : row !! col = None → B.cell row col = py "nan".
Proof. intros H. unfold B.cell. rewrite H. reflexivity. Qed.

(** X8. A row of the table whose group cell is missing is not skipped by
    the row loop of [parse_grouped_table]: its EC is recorded under the
    group "nan". *)
Theorem table_missing_group_is_nan (ec_col group_col : pystr)
    (l1 l2 : list (gmap pystr pystr)) row ec :
  (∀ r, r ∈ l1 → B.cell r ec_col ≠ ec) →
  B.cell row ec_col = ec → ec_numeric ec →
  row !! group_col = None →
  table_loop ec_col group_col ∅ (l1 ++ row :: l2) !! ec = Some (py "nan").
Proof.
  intros Hl1 Hec Hnum Hnone.
  unfold table_loop. rewrite foldl_app.
  cbn [foldl]. apply table_loop_keeps.
  unfold B.table_row. rewrite Hec, (cell_nan row group_col Hnone).
  change B.EC_REGEX with M.EC_REGEX.
  rewrite (proj2 (fullmatch_numeric_iff ec)) by done.
  rewrite bool_decide_eq_false_2 by discriminate. cbn [negb andb].
  apply setdefault_fresh. apply table_loop_skips; [done|].
  apply lookup_empty.
Qed.

Lemma label_exact_contains (names : list pystr) (sub c : pystr) :
  (∀ n, n ∈ names → contains sub n = true) →
  B.label c ∈ names → contains sub (B.label c) = true.
Proof. intros H Hin. by apply H. Qed.

Lemma filter_nil_forall {X} (P : X → Prop) `{∀ x, Decision (P x)}
    (l : list X) :
  (∀ x, x ∈ l → ¬ P x) → filter P l = [].
Proof.
  induction l as [|x l IH]; intros Hl; [done|].
  rewrite filter_cons. rewrite decide_False by (apply Hl; left).
  apply IH. intros y Hy. apply Hl. by right.
Qed.

(** X9. A table without any column whose stripped, lower-cased label
    contains "ec" is refused with a RuntimeError that lists its columns. *)
Theorem table_without_ec_column (path : pystr) (df : DataFrame) :
  read_csv path = Ok df →
  (∀ c, c ∈ columns df → contains (py "ec") (B.label c) = false) →
  B.parse_grouped_table path
  = Raise (RuntimeError (NoEcColumn path (columns df))).
Proof.
  intros Hdf Hnone. unfold B.parse_grouped_table. rewrite Hdf.
  cbn [mbind result_bind].
  rewrite (filter_nil_forall
             (fun c => B.label c ∈ [py "ec"; py "ec_number"; py "ec number"])).
  2:{ intros c Hc Hin.
      assert (contains (py "ec") (B.label c) = true) as E.
      { apply (label_exact_contains
                 [py "ec"; py "ec_number"; py "ec number"]); [|done].
        intros n Hn.
        repeat (apply elem_of_cons in Hn as [->|Hn]; [done|]).
        by apply elem_of_nil in Hn. }
      rewrite (Hnone c Hc) in E. done. }
  rewrite (filter_nil_forall
             (fun c => contains (py "ec") (B.label c) = true)).
  2:{ intros c Hc E. rewrite (Hnone c Hc) in E. done. }
  done.
Qed.

Lemma parse_grouped_table_entries path d :
  B.parse_grouped_table path = Ok d → entries ec_numeric nonempty d.
Proof.
  unfold B.parse_grouped_table.
  destruct (read_csv path) as [df|e]; [|done]. cbn [mbind result_bind].
  repeat match goal with
         | |- context [match ?l with [] => _ | _ :: _ => _ end] =>
             destruct l
         end; try done;
    intros [= <-]; apply table_loop_entries, entries_empty.
Qed.

(** X10. Whatever the format of the reference, every key of a dictionary
    that [load_ec_to_group] returns has four numeric components and every
    group is a non-empty text. *)
Theorem loaded_dictionary_entries (path : pystr) d :
  B.load_ec_to_group path = Ok d → entries ec_numeric nonempty d.
Proof.
  unfold B.load_ec_to_group, B.parse_grouped_sectioned.
  destruct (read_text path) as [text|e]; [|done]. cbn [mbind result_bind].
  case_bool_decide as Hd.
  - apply parse_grouped_table_entries.
  - intros [= <-]. intros ec g Hg.
    destruct (parse_text_entries text) as [_ HB].
    destruct (HB ec g Hg) as [Hk [Hne _]]. done.
Qed.

End Table.

(** ** Group buckets and file names of split_mt2_by_group.py *)

(** [re.sub] of a pattern [[set]+]: every maximal run of characters of the
    set is replaced by [repl]; [in_run] tells that the run has begun. *)
Fixpoint sub_runs (bad : N → bool) (repl : pystr) (in_run : bool)
    (s : pystr) : pystr :=
  match s with
  | [] => []
  | c :: s' =>
      if bad c then (if in_run then [] else repl) ++ sub_runs bad repl true s'
      else c :: sub_runs bad repl false s'
  end.

(** The characters of [A-Za-z0-9._-]. *)
Definition safe_char (c : N) : bool :=
  between 65 90 c || between 97 122 c || between 48 57 c
  || (c =? 46) || (c =? 95) || (c =? 45).

(** [re.sub(r"[^A-Za-z0-9._-]+", "_", s)] *)
Definition sanitize_filename (s : pystr) : pystr :=
  sub_runs (fun c => negb (safe_char c)) (py "_") false s.

(** [ec_to_group.values()] *)
Definition values (d : gmap pystr pystr) : list pystr :=
  snd <$> map_to_list d.

(** The buckets of [main]: the groups of the key, sorted, then the special
    labels that are not among them. *)
Definition key_groups (d : gmap pystr pystr) : list pystr :=
  merge_sort str_le (elements (list_to_set (values d) : gset pystr)).

Definition special : list pystr :=
  [py "MULTIPLE"; py "MIXED"; py "UNKNOWN"; py "NO_EC"].

Definition all_groups (d : gmap pystr pystr) : list pystr :=
  key_groups d ++ filter (fun g => g ∉ key_groups d) special.

(** The name of the file of bucket [g]; [stem] is the stem of the path of
    the data table. *)
Definition out_file (stem g : pystr) : pystr :=
  stem ++ py "_" ++ sanitize_filename g ++ py ".tsv".

Section Buckets.

Implicit Types (ecs : list pystr) (d : gmap pystr pystr) (g ec : pystr).

Lemma sub_runs_safe in_run s :
  Forall (fun c => safe_char c = true)
         (sub_runs (fun c => negb (safe_char c)) (py "_") in_run s).
Proof.
  revert in_run. induction s as [|c s IH]; intros in_run; [constructor|].
  cbn [sub_runs]. destruct (safe_char c) eqn:E; cbn [negb].
  - constructor; [done|apply IH].
  - destruct in_run; cbn [app]; [apply IH|].
    constructor; [done|apply IH].
Qed.

Lemma sub_runs_id in_run s :
  Forall (fun c => safe_char c = true) s →
  sub_runs (fun c => negb (safe_char c)) (py "_") in_run s = s.
Proof.
  intros Hs. revert in_run.
  induction Hs as [|c s Hc Hs IH]; intros in_run; [done|].
  cbn [sub_runs]. rewrite Hc. cbn [negb]. by rewrite IH.
Qed.

(** X11. [sanitize_filename] returns a text of letters, digits, dots,
    underscores and hyphens only, leaves such a text as it is, and so
    changes nothing when applied twice. *)
Theorem sanitize_filename_safe (s : pystr) :
  Forall (fun c => safe_char c = true) (sanitize_filename s) ∧
  (Forall (fun c => safe_char c = true) s → sanitize_filename s = s) ∧
  sanitize_filename (sanitize_filename s) = sanitize_filename s.
Proof.
  split; [apply sub_runs_safe|]. split; [apply sub_runs_id|].
  apply sub_runs_id, sub_runs_safe.
Qed.

Lemma key_groups_elem d g : g ∈ key_groups d ↔ ∃ ec, d !! ec = Some g.
Proof.
  unfold key_groups, values.
  rewrite merge_sort_Permutation, elem_of_elements, elem_of_list_to_set.
  rewrite list_elem_of_fmap. split.
  - intros ([ec g'] & -> & Hin). exists ec. by apply elem_of_map_to_list.
  - intros (ec & Hec). exists (ec, g). split; [done|].
    by apply elem_of_map_to_list.
Qed.

Lemma all_groups_elem d g :
  g ∈ all_groups d ↔ g ∈ special ∨ ∃ ec, d !! ec = Some g.
Proof.
  unfold all_groups. rewrite elem_of_app, list_elem_of_filter.
  rewrite key_groups_elem.
  destruct (decide (g ∈ key_groups d)) as [Hin|Hout].
  - apply key_groups_elem in Hin. tauto.
  - rewrite key_groups_elem in Hout. tauto.
Qed.

Lemma special_elem g :
  g ∈ special ↔
  g = py "MULTIPLE" ∨ g = py "MIXED" ∨ g = py "UNKNOWN" ∨ g = py "NO_EC".
Proof.
  unfold special. rewrite !elem_of_cons, elem_of_nil. tauto.
Qed.

Lemma choose_label_origin ecs d :
  A.choose_group_for_ecs ecs d ∈ special ∨
  ∃ ec, ec ∈ ecs ∧ d !! ec = Some (A.choose_group_for_ecs ecs d).
Proof.
  destruct (decide (ecs = [])) as [->|Hne].
  { left. apply special_elem. tauto. }
  rewrite choose_group_for_ecs_verdict by done. unfold verdict.
  destruct (_ && _); [left; apply special_elem; tauto|].
  destruct (_ && _); [left; apply special_elem; tauto|].
  destruct (size _ =? 1)%nat eqn:E; [|left; apply special_elem; tauto].
  apply Nat.eqb_eq, size_1_elem_of in E as [g Hg].
  apply leibniz_equiv in Hg. rewrite Hg, elements_singleton.
  cbn [head default]. right. apply mapped_groups_elem.
  apply (elem_of_list_to_set (C := gset pystr)). rewrite Hg.
  by apply elem_of_singleton.
Qed.

Lemma decide_label_origin ecs d :
  B.decide_row_group ecs d ∈ special ∨
  ∃ ec, ec ∈ ecs ∧ d !! ec = Some (B.decide_row_group ecs d).
Proof. exact (choose_label_origin ecs d). Qed.

(** X12. The label a resolver returns is one of the four special labels or
    the group of one of the ECs of the list. *)
Theorem resolver_label_origin ecs d :
  (A.choose_group_for_ecs ecs d ∈ special ∨
   ∃ ec, ec ∈ ecs ∧ d !! ec = Some (A.choose_group_for_ecs ecs d)) ∧
  (B.decide_row_group ecs d ∈ special ∨
   ∃ ec, ec ∈ ecs ∧ d !! ec = Some (B.decide_row_group ecs d)).
Proof. split; [apply choose_label_origin|apply decide_label_origin]. Qed.

Lemma special_NoDup : NoDup special.
Proof.
  unfold special.
  repeat (apply NoDup_cons; split;
          [rewrite ?elem_of_cons, elem_of_nil; intuition discriminate|]).
  apply NoDup_nil_2.
Qed.

(** X13. Every label that [decide_row_group] returns is one of the buckets
    of [main], and no bucket occurs twice: each row belongs to exactly one
    bucket. *)
Theorem every_label_has_one_bucket ecs d :
  B.decide_row_group ecs d ∈ all_groups d ∧ NoDup (all_groups d).
Proof.
  split.
  - apply all_groups_elem.
    destruct (decide_label_origin ecs d) as [H|(ec & _ & H)];
      [by left|right; by exists ec].
  - unfold all_groups. apply NoDup_app. split; [|split].
    + unfold key_groups. rewrite merge_sort_Permutation.
      apply NoDup_elements.
    + intros g Hin Hg. by apply list_elem_of_filter in Hg as [Hg _].
    + apply NoDup_filter, special_NoDup.
Qed.

End Buckets.

Section BucketFiles.
Context `{U : Unicode}.

Lemma name_char_hyphen_safe c : name_char_hyphen c = true → safe_char c = true.
Proof.
  unfold name_char_hyphen, name_char, safe_char, HYPHEN.
  destruct (between 65 90 c), (between 97 122 c), (between 48 57 c),
           (c =? 95), (c =? 45), (c =? 46); done.
Qed.

Lemma special_safe g :
  g ∈ special → Forall (fun c => safe_char c = true) g.
Proof.
  intros Hg. apply special_elem in Hg.
  destruct Hg as [Hg|[Hg|[Hg|Hg]]]; rewrite Hg; repeat constructor.
Qed.

Lemma out_file_inj stem g1 g2 :
  stem ++ py "_" ++ g1 ++ py ".tsv" = stem ++ py "_" ++ g2 ++ py ".tsv" →
  g1 = g2.
Proof.
  intros H. apply app_inv_head in H. apply app_inv_head in H.
  by apply app_inv_tail in H.
Qed.

(** X14. With a sectioned reference the buckets of [main] get file names
    that differ from each other: every group name passes
    [sanitize_filename] unchanged. *)
Theorem sectioned_bucket_files_distinct (text stem : pystr) :
  (∀ g, g ∈ all_groups (B.parse_text text) → sanitize_filename g = g) ∧
  NoDup (out_file stem <$> all_groups (B.parse_text text)).
Proof.
  assert (∀ g, g ∈ all_groups (B.parse_text text) → sanitize_filename g = g)
    as Hid.
  { intros g Hg. apply sub_runs_id.
    apply all_groups_elem in Hg as [Hg|(ec & Hg)]; [by apply special_safe|].
    destruct (parse_text_entries text) as [_ HB].
    destruct (HB ec g Hg) as [_ [_ Hchars]].
    eapply Forall_impl; [exact Hchars|]. apply name_char_hyphen_safe. }
  split; [exact Hid|].
  apply NoDup_fmap_2_strong.
  - intros g1 g2 H1 H2. unfold out_file.
    rewrite (Hid g1 H1), (Hid g2 H2). apply out_file_inj.
  - unfold all_groups. apply NoDup_app. split; [|split].
    + unfold key_groups. rewrite merge_sort_Permutation.
      apply NoDup_elements.
    + intros g Hin Hg. by apply list_elem_of_filter in Hg as [Hg _].
    + apply NoDup_filter, special_NoDup.
Qed.

End BucketFiles.

(** ** The keyed rows of MT_split_by_ec.py *)
Section Keyed.
Context `{U : Unicode} `{F : Files}.

Implicit Types (rs : list (gmap pystr pystr)) (xss : list (list pystr)).




















End Keyed.

Section FirstKey.
Context `{U : Unicode}.

#[local] Existing Instance str_le_total.

Lemma str_leb_trans a b c :
  str_leb a b = true → str_leb b c = true → str_leb a c = true.
Proof.
  revert b c. induction a as [|x a IH]; intros b c; [done|].
  destruct b as [|y b]; [done|]. destruct c as [|z c]; [done|].
  cbn [str_leb]. rewrite !orb_true_iff, !andb_true_iff.
  rewrite !N.ltb_lt, !N.eqb_eq.
  intros [H1|[H1 H1']] [H2|[H2 H2']].
  - left. lia.
  - left. lia.
  - left. lia.
  - right. split; [lia|]. by apply (IH b c).
Qed.

#[local] Instance str_le_trans : Transitive str_le.
Proof.
  intros a b c. unfold str_le. rewrite !Is_true_true. apply str_leb_trans.
Qed.

(** X16. In mode first the key of a row with ECs is the least of its ECs in
    code-point order of the text, whatever their order in the row. *)
Theorem first_key_is_least (s ec : pystr) :
  ec ∈ M.extract_ec_list (PStr s) →
  ∃ k, M.ec_keys M.first (M.extract_ec_list (PStr s)) = [k] ∧
       k ∈ M.extract_ec_list (PStr s) ∧ str_le k ec.
Proof.
  intros Hin.
  pose proof (StronglySorted_merge_sort str_le
                (elements (list_to_set (re_findall M.EC_REGEX s)
                           : gset pystr))) as Hs.
  change (merge_sort str_le _) with (M.extract_ec_list (PStr s)) in Hs.
  destruct (M.extract_ec_list (PStr s)) as [|k l] eqn:E.
  { by apply elem_of_nil in Hin. }
  exists k. split; [done|]. split; [left|].
  apply elem_of_cons in Hin as [->|Hin].
  - destruct (total str_le k k); done.
  - apply StronglySorted_inv in Hs as [_ Hall].
    by apply (proj1 (Forall_forall _ _) Hall).
Qed.

End FirstKey.

(** ** More on the name classifier *)

(** The group order of the output of ec_to_type.py. *)
Definition order : list pystr :=
  [py "O_MT"; py "N_MT"; py "C_MT"; py "S_MT"; py "UNCLEAR"; py "OTHER";
   py "TRANSFERRED"; py "DELETED"].

Section Tags.
Context `{U : Unicode}.
Import ec_to_type.

(** X17. Whatever the name and the status are, [classify] returns one of
    the eight groups of the output order, and the order names no group
    twice: each record falls in exactly one block of the output. *)
Theorem classify_one_of_eight (name status : pystr) :
  classify name status ∈ order ∧ NoDup order.
Proof.
  split.
  - unfold classify, order.
    repeat match goal with
           | |- context [decide ?P] => destruct (decide P)
           | |- context [if ?b then _ else _] => destruct b
           end;
      rewrite !elem_of_cons; tauto.
  - unfold order.
    repeat (apply NoDup_cons; split;
            [rewrite ?elem_of_cons, elem_of_nil; intuition discriminate|]).
    apply NoDup_nil_2.
Qed.

End Tags.

(** *** Letter case *)
Section LetterCase.
Context `{U : Unicode}.
Import ec_to_type.

Ltac cmp :=
  repeat (match goal with
          | |- context [(?a <=? ?b)] => destruct (N.leb_spec a b)
          | |- context [(?a <? ?b)] => destruct (N.ltb_spec a b)
          | |- context [(?a =? ?b)] => destruct (N.eqb_spec a b)
          end; try lia);
  cbn [andb orb negb] in *; try done; try lia.

(** The text with its ASCII capitals turned into small letters. *)
Definition fold_case (s : pystr) : pystr := ascii_lower <$> s.

Definition is_ascii (s : pystr) : Prop := Forall (fun c => c < 128) s.

Lemma ascii_lower_cases x :
  (65 ≤ x ∧ x ≤ 90 ∧ ascii_lower x = x + 32) ∨ ascii_lower x = x.
Proof.
  unfold ascii_lower. destruct (between 65 90 x) eqn:E; [left|by right].
  unfold between in E. apply andb_true_iff in E as [E1 E2].
  apply N.leb_le in E1, E2. done.
Qed.

Ltac lower_cases x :=
  destruct (ascii_lower_cases x) as [(? & ? & ->)| ->]; [|done].

Lemma ascii_lower_idemp x : ascii_lower (ascii_lower x) = ascii_lower x.
Proof.
  destruct (ascii_lower_cases x) as [(? & ? & ->)|E]; [|by rewrite !E].
  unfold ascii_lower, between. cmp.
Qed.

Lemma ascii_lower_ascii x : (ascii_lower x <? 128) = (x <? 128).
Proof. lower_cases x. cmp. Qed.

Lemma isdecimal_fold x : isdecimal (ascii_lower x) = isdecimal x.
Proof. lower_cases x. unfold isdecimal, between. cmp. Qed.

Lemma isword_fold x : isword (ascii_lower x) = isword x.
Proof. lower_cases x. unfold isword, isalnum, isdecimal, between. cmp. Qed.

(** An item that does not tell a capital from its small letter. *)
Definition cset_caseless (c : cset) : Prop :=
  ∀ x, cset_match c (ascii_lower x) = cset_match c x.

Fixpoint caseless (r : regex) : Prop :=
  match r with
  | Eps | Bnd => True
  | Chr c | Star c | Plus c => cset_caseless c
  | Cat r1 r2 | Alt r1 r2 => caseless r1 ∧ caseless r2
  | Grp r' => caseless r'
  end.

Lemma CLit_caseless p :
  between 65 90 p || between 97 122 p = false → cset_caseless (CLit p).
Proof.
  intros Hp x. cbn [cset_match]. lower_cases x. revert Hp.
  unfold between. cmp.
Qed.

Lemma CLitI_caseless p : cset_caseless (CLitI p).
Proof.
  intros x. cbn [cset_match].
  rewrite ascii_lower_ascii, ascii_lower_idemp.
  destruct (x <? 128) eqn:E; [done|]. apply N.ltb_ge in E.
  destruct (ascii_lower_cases x) as [(? & ? & _)| ->]; [lia|done].
Qed.

Lemma CDigit_caseless : cset_caseless CDigit.
Proof. intros x. apply isdecimal_fold. Qed.

Lemma lit_i_caseless s : caseless (lit_i s).
Proof.
  unfold lit_i. induction (py s) as [|c l IH]; [done|].
  cbn [foldr caseless]. split; [|exact IH].
  destruct (between 65 90 c || between 97 122 c) eqn:E.
  - apply CLitI_caseless.
  - by apply CLit_caseless.
Qed.

Lemma boundary_fold p s :
  boundary (ascii_lower <$> p) (fold_case s) = boundary p s.
Proof.
  unfold boundary. f_equal.
  - destruct p; [apply isword_fold|done].
  - destruct s; [done|apply isword_fold].
Qed.

Section Sim.
Context {A1 A2 : Type}.

(** Two continuations fail together on a text and on its folded form. *)
Definition agree_fold (k1 : cont (A := A1)) (k2 : cont (A := A2)) : Prop :=
  ∀ p s g1 g2,
    k1 p s g1 = None ↔ k2 (ascii_lower <$> p) (fold_case s) g2 = None.

Lemma fold_case_cons x s : fold_case (x :: s) = ascii_lower x :: fold_case s.
Proof. reflexivity. Qed.

Lemma run_star_fold c k1 k2 prev s g1 g2 :
  cset_caseless c → agree_fold k1 k2 →
  run_star c prev s g1 k1 = None
  ↔ run_star c (ascii_lower <$> prev) (fold_case s) g2 k2 = None.
Proof.
  intros Hc Hk. revert prev. induction s as [|x s IH]; intros prev.
  - apply (Hk prev []).
  - pose proof (Hk prev (x :: s) g1 g2) as Hx.
    rewrite fold_case_cons in Hx |- *. cbn [run_star]. rewrite Hc.
    destruct (cset_match c x); [|exact Hx].
    specialize (IH (Some x)).
    change (ascii_lower <$> Some x) with (Some (ascii_lower x)) in IH.
    destruct (run_star c (Some x) s g1 k1),
             (run_star c (Some (ascii_lower x)) (fold_case s) g2 k2);
      try done; destruct IH as [I1 I2];
      try (by discriminate I1); try (by discriminate I2).
Qed.

Lemma run_fold r :
  caseless r →
  ∀ k1 k2 prev s g1 g2,
    agree_fold k1 k2 →
    run r prev s g1 k1 = None
    ↔ run r (ascii_lower <$> prev) (fold_case s) g2 k2 = None.
Proof.
  induction r as [|c| |r1 IH1 r2 IH2|r1 IH1 r2 IH2|c|c|r IH];
    intros Hr k1 k2 prev s g1 g2 Hk; cbn [run].
  - apply Hk.
  - destruct s as [|x s]; [done|].
    rewrite fold_case_cons. rewrite (Hr x).
    destruct (cset_match c x); [apply (Hk (Some x) s)|done].
  - rewrite boundary_fold. destruct (boundary prev s); [apply Hk|done].
  - destruct Hr as [Hr1 Hr2]. apply IH1; [done|].
    intros p s' g1' g2'. by apply IH2.
  - destruct Hr as [Hr1 Hr2].
    specialize (IH1 Hr1 k1 k2 prev s g1 g2 Hk).
    specialize (IH2 Hr2 k1 k2 prev s g1 g2 Hk).
    destruct (run r1 prev s g1 k1),
             (run r1 (ascii_lower <$> prev) (fold_case s) g2 k2);
      try done; destruct IH1 as [I1 I2];
      try (by discriminate I1); try (by discriminate I2).
  - by apply run_star_fold.
  - destruct s as [|x s]; [done|].
    rewrite fold_case_cons. rewrite (Hr x).
    destruct (cset_match c x); [|done].
    by apply (run_star_fold c k1 k2 (Some x)).
  - apply IH; [done|]. intros p s' g1' g2'. apply Hk.
Qed.

End Sim.

Lemma accept_agree : agree_fold accept accept.
Proof. intros p s g1 g2. done. Qed.

Lemma search_fold r prev s :
  caseless r →
  found (search_from r prev s)
  = found (search_from r (ascii_lower <$> prev) (fold_case s)).
Proof.
  intros Hr. revert prev. induction s as [|x s IH]; intros prev.
  - pose proof (run_fold r Hr accept accept prev [] None None accept_agree)
      as H.
    change (fold_case []) with (@nil N) in *. cbn [search_from].
    destruct (run r prev [] None accept),
             (run r (ascii_lower <$> prev) [] None accept);
      try done; destruct H as [I1 I2];
      try (by discriminate I1); try (by discriminate I2).
  - pose proof (run_fold r Hr accept accept prev (x :: s) None None
                  accept_agree) as H.
    rewrite fold_case_cons in H |- *. cbn [search_from].
    specialize (IH (Some x)).
    change (ascii_lower <$> Some x) with (Some (ascii_lower x)) in IH.
    destruct (run r prev (x :: s) None accept),
             (run r (ascii_lower <$> prev) (ascii_lower x :: fold_case s)
                  None accept);
      try done; destruct H as [I1 I2];
      try (by discriminate I1); try (by discriminate I2).
Qed.

Lemma re_search_fold r s :
  caseless r → found (re_search r s) = found (re_search r (fold_case s)).
Proof. intros Hr. apply (search_fold r None s Hr). Qed.

Lemma is_ascii_fold s : is_ascii (fold_case s) ↔ is_ascii s.
Proof.
  unfold is_ascii, fold_case. rewrite Forall_fmap.
  apply Forall_iff. intros x. cbn.
  rewrite <- !N.ltb_lt. by rewrite ascii_lower_ascii.
Qed.

Lemma fold_case_idemp s : fold_case (fold_case s) = fold_case s.
Proof.
  unfold fold_case. rewrite <- list_fmap_compose.
  apply list_fmap_ext. intros i x _. apply ascii_lower_idemp.
Qed.

(** On an ASCII text [lower] turns the capitals into small letters. *)
Lemma lower_ascii s : is_ascii s → lower s = fold_case s.
Proof.
  unfold lower. generalize (@nil N) as before.
  intros before Hs. revert before.
  induction Hs as [|c s Hc Hs IH]; intros before; [done|].
  cbn [lower_from]. rewrite (proj2 (N.ltb_lt c 128)) by done.
  rewrite fold_case_cons. cbn [app]. by rewrite IH.
Qed.

Lemma CUnion_caseless a b :
  cset_caseless a → cset_caseless b → cset_caseless (CUnion a b).
Proof. intros Ha Hb x. cbn [cset_match]. by rewrite Ha, Hb. Qed.

Lemma word_caseless s : caseless (seq [Bnd; lit_i s; Bnd]).
Proof. cbn [seq foldr caseless]. split; [done|]. split; [|done]. apply lit_i_caseless. Qed.

Lemma classify_patterns_caseless :
  caseless RE_CO_MT ∧ caseless RE_2P_O ∧ caseless RE_O_MT ∧
  caseless RE_N_MT ∧ caseless RE_N_PAREN ∧ caseless RE_C_MT ∧
  caseless RE_C_PAREN ∧ caseless RE_CYTOSINE_5 ∧ caseless RE_S_MT ∧
  caseless RE_S_HINT ∧ caseless RE_MT_WORD.
Proof.
  assert (caseless RE_2P_O) as H2.
  { unfold RE_2P_O. cbn [seq foldr caseless].
    split; [by apply CLit_caseless|].
    split; [apply CUnion_caseless; by apply CLit_caseless|].
    split; [apply lit_i_caseless|done]. }
  assert (caseless RE_N_PAREN) as H5.
  { unfold RE_N_PAREN. cbn [seq foldr caseless].
    split; [|apply lit_i_caseless].
    split; [done|]. split; [apply lit_i_caseless|].
    split; [apply CDigit_caseless|]. split; [apply lit_i_caseless|done]. }
  assert (caseless RE_C_PAREN) as H7.
  { unfold RE_C_PAREN. cbn [seq foldr caseless].
    split; [done|]. split; [apply lit_i_caseless|].
    split; [apply CDigit_caseless|]. split; [apply lit_i_caseless|done]. }
  assert (caseless RE_S_HINT) as H10.
  { unfold RE_S_HINT. cbn [caseless].
    split; [apply word_caseless|]. split; [apply word_caseless|].
    split; apply word_caseless. }
  exact (conj (word_caseless _) (conj H2 (conj (word_caseless _)
        (conj (word_caseless _) (conj H5 (conj (word_caseless _)
        (conj H7 (conj (lit_i_caseless _) (conj (word_caseless _)
        (conj H10 (word_caseless _))))))))))).
Qed.

Lemma classify_fold name status :
  is_ascii name → classify (fold_case name) status = classify name status.
Proof.
  intros Hname. unfold classify.
  destruct classify_patterns_caseless
    as (H1 & H2 & H3 & H4 & H5 & H6 & H7 & H8 & H9 & H10 & H11).
  rewrite <- !re_search_fold by done.
  rewrite (lower_ascii (fold_case name)) by (by apply is_ascii_fold).
  by rewrite fold_case_idemp, (lower_ascii name).
Qed.

(** X18. On ASCII names the classifier does not look at letter case: two
    names that differ only in the case of their letters get the same
    group. *)
Theorem classify_ignores_case (name1 name2 status : pystr) :
  is_ascii name1 → fold_case name1 = fold_case name2 →
  classify name1 status = classify name2 status.
Proof.
  intros H1 E.
  assert (is_ascii name2) as H2.
  { apply is_ascii_fold. rewrite <- E. by apply is_ascii_fold. }
  by rewrite <- (classify_fold name1), <- (classify_fold name2), E.
Qed.

End LetterCase.

(** *** The status of a record *)

(** The status that [main] of ec_to_type.py derives from the name of a
    record before it calls [classify]. *)
Definition entry_status `{U : Unicode} (name : pystr) : pystr :=
  let low := lower name in
  if startswith (py "transferred entry") low then py "TRANSFERRED"
  else if startswith (py "deleted entry") low then py "DELETED"
  else py "OK".

Section Status.
Context `{U : Unicode}.
Import ec_to_type.

Lemma classify_OK_text name :
  classify name (py "OK") ≠ py "TRANSFERRED" ∧
  classify name (py "OK") ≠ py "DELETED".
Proof.
  unfold classify.
  rewrite decide_False by discriminate. rewrite decide_False by discriminate.
  repeat match goal with
         | |- context [if ?b then _ else _] => destruct b
         end; split; discriminate.
Qed.

Lemma startswith_head a p s :
  startswith (a :: p) s = true → ∃ s', s = a :: s'.
Proof.
  destruct s as [|b s]; [done|]. cbn [startswith].
  intros [E _]%andb_true_iff. apply N.eqb_eq in E as ->. by exists s.
Qed.

Lemma classify_status_tags name :
  classify name (py "TRANSFERRED") = py "TRANSFERRED" ∧
  classify name (py "DELETED") = py "DELETED".
Proof.
  split; unfold classify.
  - by rewrite decide_True.
  - rewrite decide_False by discriminate. by rewrite decide_True.
Qed.

(** X19. A record is put in the group TRANSFERRED exactly when its name
    starts, in any letter case, with "transferred entry", and in the group
    DELETED exactly when it starts with "deleted entry"; the rest of the
    name plays no part. *)
Theorem transferred_and_deleted_records (name : pystr) :
  (classify name (entry_status name) = py "TRANSFERRED"
   ↔ startswith (py "transferred entry") (lower name) = true) ∧
  (classify name (entry_status name) = py "DELETED"
   ↔ startswith (py "deleted entry") (lower name) = true).
Proof.
  destruct (classify_OK_text name) as [HT HD].
  destruct (classify_status_tags name) as [ET ED].
  unfold entry_status. cbv zeta.
  destruct (startswith (py "transferred entry") (lower name)) eqn:E1.
  - rewrite ET. split; [done|]. split; [discriminate|].
    intros E2.
    change (py "transferred entry") with (116 :: py "ransferred entry") in E1.
    change (py "deleted entry") with (100 :: py "eleted entry") in E2.
    apply startswith_head in E1 as (s1 & E1).
    apply startswith_head in E2 as (s2 & E2). congruence.
  - destruct (startswith (py "deleted entry") (lower name)) eqn:E2.
    + rewrite ED. split; split; done.
    + split; split; done.
Qed.

End Status.

(** ** count_unique_entry_bases.py *)

Definition UNDERSCORE : N := 95.

(** The base part of an entry name, before the first underscore. *)
Definition base_name `{U : Unicode} (entry : pystr) : pystr :=
  let entry := strip entry in
  match entry with
  | [] => []
  | _ => split_first UNDERSCORE entry
  end.

Section BaseName.
Context `{U : Unicode}.

Lemma split_first_spec sep s :
  (sep ∉ split_first sep s) ∧
  ∃ rest, s = split_first sep s ++ rest ∧ (rest = [] ∨ ∃ r, rest = sep :: r).
Proof.
  induction s as [|c s (Hnot & rest & Hs & Hrest)].
  - split; [by intros ?%elem_of_nil|]. exists []. split; [done|by left].
  - cbn [split_first]. destruct (c =? sep) eqn:E.
    + apply N.eqb_eq in E as ->.
      split; [by intros ?%elem_of_nil|].
      exists (sep :: s). split; [done|]. right. by exists s.
    + apply N.eqb_neq in E. split.
      * intros [->|Hin]%elem_of_cons; done.
      * exists rest. split; [|done]. cbn [app]. by rewrite <- Hs.
Qed.

(** X20. The base name holds no underscore and is the beginning of the
    stripped entry name: what follows it, if anything, starts with an
    underscore. *)
Theorem base_name_before_underscore (entry : pystr) :
  (UNDERSCORE ∉ base_name entry) ∧
  ∃ rest, strip entry = base_name entry ++ rest ∧
          (rest = [] ∨ ∃ r, rest = UNDERSCORE :: r).
Proof.
  unfold base_name. cbv zeta. destruct (strip entry) as [|c s] eqn:E.
  - split; [by intros ?%elem_of_nil|]. exists []. split; [done|by left].
  - apply split_first_spec.
Qed.

End BaseName.

(** ** Worked instances of the further properties *)

(** A reference with the EC 2.1.1.1 under the N_MT header and again under
    the C_MT header: both parsers keep N_MT. *)
Definition demo_two_headers : pystr :=
  py "# N_MT" ++ [LF] ++
  py "ec" ++ [TAB] ++ py "name" ++ [LF] ++
  py "2.1.1.1" ++ [TAB] ++ py "x N-methyltransferase" ++ [LF] ++
  py "# C_MT" ++ [LF] ++
  py "2.1.1.1" ++ [TAB] ++ py "y C-methyltransferase" ++ [LF].

Lemma reference_parser_first_wins_witness :
  A.parse_text (U := ascii_tables) demo_two_headers !! py "2.1.1.1"
  = Some (py "N_MT") ∧
  B.parse_text (U := ascii_tables) demo_two_headers !! py "2.1.1.1"
  = Some (py "N_MT").
Proof.
  pose (hdr := py "# N_MT").
  pose (l2 := [py "ec" ++ [TAB] ++ py "name"]).
  pose (raw := py "2.1.1.1" ++ [TAB] ++ py "x N-methyltransferase").
  pose (l3 := [py "# C_MT";
               py "2.1.1.1" ++ [TAB] ++ py "y C-methyltransferase"]).
  assert (∀ r, r ∈ l2 → no_header (U := ascii_tables) r) as Hl2.
  { intros r Hin. apply list_elem_of_singleton in Hin as ->. by vm_compute. }
  assert (∀ r, r ∈ [] ++ l2 →
               data_ec (U := ascii_tables) r ≠ Some (py "2.1.1.1")) as Hbefore.
  { intros r Hin. apply list_elem_of_singleton in Hin as ->. by vm_compute. }
  split.
  - apply (proj1 (reference_parser_first_wins (U := ascii_tables))
             demo_two_headers [] hdr l2 raw l3);
      [by vm_compute| |exact Hl2|exact Hbefore|by vm_compute].
    exists [32], []. split; [by vm_compute|].
    split; [by repeat constructor|]. split; [|by vm_compute].
    split; [done|by repeat constructor].
  - apply (proj1 (proj2 (reference_parser_first_wins (U := ascii_tables)))
             demo_two_headers [] hdr l2 raw l3);
      [by vm_compute| |exact Hl2|exact Hbefore|by vm_compute].
    exists [32], []. split; [by vm_compute|].
    split; [by repeat constructor|]. split; [|by vm_compute].
    split; [done|by repeat constructor].
Defined.

Lemma demo_ec_numeric : ec_numeric (U := ascii_tables) (py "2.1.1.1").
Proof.
  exists (py "2"), (py "1"), (py "1"), (py "1").
  repeat (split; [split; [discriminate|by repeat constructor]|]).
  reflexivity.
Qed.

Lemma extract_ec_list_shape_witness :
  ec_shaped (U := ascii_tables) (py "2.1.1.63") ∧
  ∃ pre post, py "EC 2.1.1.63 (SAM)" = pre ++ py "2.1.1.63" ++ post.
Proof.
  apply (extract_ec_list_shape (U := ascii_tables)
           (py "EC 2.1.1.63 (SAM)") (py "2.1.1.63")).
  assert (M.extract_ec_list (U := ascii_tables) (PStr (py "EC 2.1.1.63 (SAM)"))
          = [py "2.1.1.63"]) as -> by (by vm_compute).
  left.
Defined.

Lemma lines_before_first_header_witness :
  A.parse_lines (U := ascii_tables) A_init
    ([py "2.1.1.1" ++ [TAB] ++ py "x"; []]
       ++ [py "# O_MT (1)"; py "2.1.1.2" ++ [TAB] ++ py "y"])
  = A.parse_lines (U := ascii_tables) A_init
      [py "# O_MT (1)"; py "2.1.1.2" ++ [TAB] ++ py "y"].
Proof.
  apply (lines_before_first_header (U := ascii_tables)
           [py "2.1.1.1" ++ [TAB] ++ py "x"; []]).
  intros r Hin. in_list Hin; by vm_compute.
Defined.

Lemma wildcard_rows_unknown_witness :
  A.choose_group_for_ecs [py "2.1.1.-"]
    (A.parse_text (U := ascii_tables) demo_reference) = py "UNKNOWN" ∧
  B.decide_row_group [py "2.1.1.-"]
    (B.parse_text (U := ascii_tables) demo_reference) = py "UNKNOWN".
Proof.
  apply (wildcard_rows_unknown (U := ascii_tables) demo_reference
           [py "2.1.1.-"]); [done|].
  intros ec Hin. in_list Hin. by vm_compute.
Defined.

(** Two rows of a table reference with the same EC, and a row without
    group cell. *)
Definition demo_row (ec group : pystr) : gmap pystr pystr :=
  <[py "ec" := ec]> {[ py "group" := group ]}.

Definition demo_row_no_group (ec : pystr) : gmap pystr pystr :=
  {[ py "ec" := ec ]}.

Lemma table_first_wins_witness :
  table_loop (U := ascii_tables) (py "ec") (py "group") ∅
    ([] ++ demo_row (py "2.1.1.1") (py "O_MT")
        :: [demo_row (py "2.1.1.1") (py "N_MT")])
  !! py "2.1.1.1" = Some (py "O_MT").
Proof.
  apply (proj2 (table_first_wins (U := ascii_tables) (F := demo_files))).
  - intros r Hin. by apply elem_of_nil in Hin.
  - by vm_compute.
  - exact demo_ec_numeric.
  - by vm_compute.
  - discriminate.
Defined.

Lemma table_missing_group_is_nan_witness :
  table_loop (U := ascii_tables) (py "ec") (py "group") ∅
    ([] ++ demo_row_no_group (py "2.1.1.1")
        :: [demo_row (py "2.1.1.1") (py "N_MT")])
  !! py "2.1.1.1" = Some (py "nan").
Proof.
  apply (table_missing_group_is_nan (U := ascii_tables)).
  - intros r Hin. by apply elem_of_nil in Hin.
  - by vm_compute.
  - exact demo_ec_numeric.
  - by vm_compute.
Defined.

Lemma table_without_ec_column_witness :
  B.parse_grouped_table (U := ascii_tables) (F := demo_files)
    (py "MT_grouped.tsv")
  = Raise (RuntimeError (NoEcColumn (py "MT_grouped.tsv") [py "Entry"])).
Proof.
  apply (table_without_ec_column (U := ascii_tables) (F := demo_files)
           (py "MT_grouped.tsv") demo_table); [done|].
  intros c Hin. in_list Hin. by vm_compute.
Defined.

Lemma loaded_dictionary_entries_witness :
  entries (ec_numeric (U := ascii_tables)) nonempty
    (B.parse_text (U := ascii_tables) demo_reference).
Proof.
  apply (loaded_dictionary_entries (U := ascii_tables) (F := demo_files)
           (py "MT_grouped.tsv")).
  by vm_compute.
Defined.

Lemma sanitize_filename_safe_witness : sanitize_filename (py "O_MT") = py "O_MT".
Proof.
  apply (proj1 (proj2 (sanitize_filename_safe (py "O_MT")))).
  by repeat constructor.
Defined.


Lemma first_key_is_least_witness :
  ∃ k, M.ec_keys M.first
         (M.extract_ec_list (U := ascii_tables)
            (PStr (py "2.1.1.9|2.1.1.10"))) = [k] ∧
       k ∈ M.extract_ec_list (U := ascii_tables)
             (PStr (py "2.1.1.9|2.1.1.10")) ∧
       str_le k (py "2.1.1.9").
Proof.
  apply (first_key_is_least (U := ascii_tables)).
  assert (M.extract_ec_list (U := ascii_tables) (PStr (py "2.1.1.9|2.1.1.10"))
          = [py "2.1.1.10"; py "2.1.1.9"]) as -> by (by vm_compute).
  right. left.
Defined.

Lemma classify_ignores_case_witness :
  ec_to_type.classify (U := ascii_tables)
    (py "Catechol O-Methyltransferase") OK
  = ec_to_type.classify (U := ascii_tables)
      (py "CATECHOL o-methyltransferase") OK.
Proof.
  apply (classify_ignores_case (U := ascii_tables)).
  - unfold is_ascii. vm_compute. by repeat constructor.
  - by vm_compute.
Defined.

(** ** The labelled table of split_mt2_by_group.py *)
Section Labelled.
Context `{U : Unicode} `{F : Files}.

Lemma set_column_labels (df : DataFrame) (col : pystr) (labels : list pystr)
    (row : gmap pystr pystr) :
  row ∈ rows (set_column df col labels) →
  ∃ v, v ∈ labels ∧ row !! col = Some v.
Proof.
  cbn [set_column rows]. generalize (rows df) as rs. intros rs.
  revert labels. induction rs as [|r rs IH]; intros labels.
  { by intros ?%elem_of_nil. }
  destruct labels as [|v labels]; [by intros ?%elem_of_nil|].
  cbn [zip_with]. intros [->|Hin]%elem_of_cons.
  - exists v. split; [left|apply lookup_insert_eq].
  - destruct (IH labels Hin) as (v' & Hv & Hrow). exists v'.
    split; [by right|done].
Qed.

(** X21. When split_mt2_by_group.py gets as far as its labelled table, the
    table has as many rows as the data table, and every row carries in
    MT_group a label that is one of the buckets of [main]: no row is left
    without a file. *)
Theorem split_main_labels (a : B.args) (out : DataFrame) :
  B.main a = Ok out →
  ∃ d df,
    B.load_ec_to_group (B.mt_grouped_tsv a) = Ok d ∧
    read_csv (B.mt2_tsv a) = Ok df ∧
    length (rows out) = length (rows df) ∧
    ∀ row, row ∈ rows out →
           ∃ g, row !! py "MT_group" = Some g ∧ g ∈ all_groups d.
Proof.
  unfold B.main.
  destruct (B.load_ec_to_group (B.mt_grouped_tsv a)) as [d|e]; [|done].
  cbn [mbind result_bind]. case_bool_decide; [done|].
  destruct (read_csv (B.mt2_tsv a)) as [df|e]; [|done].
  cbn [mbind result_bind]. destruct (negb _); [done|].
  intros [= <-]. exists d, df. split; [done|]. split; [done|]. split.
  - cbn [set_column rows]. rewrite length_zip_with_l_eq; [done|].
    unfold column_text. by rewrite !length_fmap.
  - intros row Hin. apply set_column_labels in Hin as (g & Hg & Hrow).
    exists g. split; [done|].
    apply list_elem_of_fmap in Hg as (ecs & -> & _).
    apply all_groups_elem.
    destruct (decide_label_origin ecs d) as [H'|(ec & _ & H')];
      [by left|right; by exists ec].
Qed.

End Labelled.

(** A data table with an EC column, and the files of a run that succeeds. *)
Definition full_table : DataFrame :=
  {| columns := [py "Entry"; py "EC number"];
     rows := [<[py "Entry" := py "P1"]> {[ py "EC number" := py "2.1.1.1" ]};
              <[py "Entry" := py "P2"]> {[ py "EC number" := py "9.9.9.9" ]}] |}.

Definition full_files : Files :=
  {| read_text := fun _ => Ok demo_reference;
     read_csv := fun _ => Ok full_table |}.

Definition full_labelled : DataFrame :=
  set_column full_table (py "MT_group") [py "O_MT"; py "UNKNOWN"].

Lemma split_main_labels_witness :
  ∃ d df,
    B.load_ec_to_group (U := ascii_tables) (F := full_files)
      (B.mt_grouped_tsv demo_args_B) = Ok d ∧
    read_csv (Files := full_files) (B.mt2_tsv demo_args_B) = Ok df ∧
    length (rows full_labelled) = length (rows df) ∧
    ∀ row, row ∈ rows full_labelled →
           ∃ g, row !! py "MT_group" = Some g ∧ g ∈ all_groups d.
Proof.
  apply (split_main_labels (U := ascii_tables) (F := full_files)
           demo_args_B full_labelled).
  by vm_compute.
Defined.
